(** * RhoMyosin: the layered right-hand side and the adaptive stepper

    A shallow embedding of [RhoMyosin.cpp]: the 46-species reaction network
    of the Rho/myosin model, its right-hand side [rhs] built from five
    nested layers, the embedded Runge-Kutta routine
    [bogackiShampineStepper] and the integration loop of [main].

    Number model.  A C++ [double] is read as a real number: [+ - * /] are
    the field operations of [R], [fabs] is [Rabs], [exp] is [exp].
    [pow(a, 3.0)] and [pow(a, 4.0)] are the 3- and 4-fold products;
    [std::pow(errMax, 1.0 / 3.0)], only ever called with [errMax > 0], is
    [Rpower].  Rounding, overflow and the IEEE special values are outside
    this model.

    A [std::vector<double>] of length [nvar] indexed by the enumeration
    [Variables] is a function [Variables -> R]. *)

From Stdlib Require Import String Reals Lra List Bool Arith Lia.
From Stdlib Require Import Sorted.
Import ListNotations.
Open Scope R_scope.

(** ** Parameters of the integration algorithm *)

Definition nvar : nat := 46.
Definition tEnd : R := 300.0.
Definition dt0 : R := 0.01.
Definition dtsav : R := 0.1.
Definition tolerance : R := 1.0e-6.

(** ** The list of variable names *)

Inductive Variables : Set :=
| Ca | CaM | CaCaM | Ng | NgCaM | CaMKII | Factin | CaMKIIFactin | Gactin
| CaMKIIGactin | CaMKIIp | CaN | CaNact | I1 | I1act | PP1 | PP1act
| Cdc42GEF | Cdc42GEFact | Cdc42GDP | Cdc42GTP | GAP | GAPact | WASP
| WASPact | Arp23 | Arp23act
| SSH1 | SSH1act | LIMK | LIMKact | Cofilin | Cofilinact
| Fnewactin | B | Bp
| RhoGEF | RhoGEFact | RhoGDP | RhoGTP | ROCK | ROCKact | MyoPpase
| MyoPpaseact | MLC | MLCact.

(** The enumerators in declaration order. *)
Definition variables : list Variables :=
  [ Ca; CaM; CaCaM; Ng; NgCaM; CaMKII; Factin; CaMKIIFactin; Gactin;
    CaMKIIGactin; CaMKIIp; CaN; CaNact; I1; I1act; PP1; PP1act;
    Cdc42GEF; Cdc42GEFact; Cdc42GDP; Cdc42GTP; GAP; GAPact; WASP;
    WASPact; Arp23; Arp23act;
    SSH1; SSH1act; LIMK; LIMKact; Cofilin; Cofilinact;
    Fnewactin; B; Bp;
    RhoGEF; RhoGEFact; RhoGDP; RhoGTP; ROCK; ROCKact; MyoPpase;
    MyoPpaseact; MLC; MLCact ].

(** The integer value of an enumerator: its position in the declaration. *)
Definition enum (v : Variables) : nat :=
  match v with
  | Ca => 0 | CaM => 1 | CaCaM => 2 | Ng => 3 | NgCaM => 4 | CaMKII => 5
  | Factin => 6 | CaMKIIFactin => 7 | Gactin => 8 | CaMKIIGactin => 9
  | CaMKIIp => 10 | CaN => 11 | CaNact => 12 | I1 => 13 | I1act => 14
  | PP1 => 15 | PP1act => 16
  | Cdc42GEF => 17 | Cdc42GEFact => 18 | Cdc42GDP => 19 | Cdc42GTP => 20
  | GAP => 21 | GAPact => 22 | WASP => 23 | WASPact => 24 | Arp23 => 25
  | Arp23act => 26
  | SSH1 => 27 | SSH1act => 28 | LIMK => 29 | LIMKact => 30
  | Cofilin => 31 | Cofilinact => 32
  | Fnewactin => 33 | B => 34 | Bp => 35
  | RhoGEF => 36 | RhoGEFact => 37 | RhoGDP => 38 | RhoGTP => 39
  | ROCK => 40 | ROCKact => 41 | MyoPpase => 42 | MyoPpaseact => 43
  | MLC => 44 | MLCact => 45
  end%nat.

(** Implicit conversion of an enumerator used as a number, as in
    [1.0 + RhoGEF]. *)
Definition enum_value (v : Variables) : R := INR (enum v).

(** ** Vectors of [nvar] doubles *)

Definition vec : Type := Variables -> R.

(** [std::vector<double> v(nvar)]: value-initialised to zero. *)
Definition zeros : vec := fun _ => 0.

Definition same_slot (i j : Variables) : bool := Nat.eqb (enum i) (enum j).

(** [d[i] = v]. *)
Definition upd (d : vec) (i : Variables) (v : R) : vec :=
  fun j => if same_slot i j then v else d j.

(** The two kinds of statement in the "Determine all dxdt's" blocks. *)
Inductive write : Type :=
| Assign (i : Variables) (v : R)   (* dxdt[i]  = v; *)
| Accum  (i : Variables) (v : R).  (* dxdt[i] += v; *)

Declare Scope write_scope.
Delimit Scope write_scope with write.
Notation "i ::= v" := (Assign i v) (at level 75) : write_scope.
Notation "i +:= v" := (Accum i v) (at level 75) : write_scope.

Definition slot (w : write) : Variables :=
  match w with Assign i _ => i | Accum i _ => i end.

Definition is_assign (w : write) : bool :=
  match w with Assign _ _ => true | Accum _ _ => false end.

Definition exec (d : vec) (w : write) : vec :=
  match w with
  | Assign i v => upd d i v
  | Accum i v => upd d i (d i + v)
  end.

(** Run a block of writes from top to bottom. *)
Definition store (d : vec) (ws : list write) : vec := fold_left exec ws d.

(** [pow(a, n.0)] for the integral exponents of the model. *)
Definition pow (a : R) (n : nat) : R := a ^ n.

(** ** The right-hand side of the ODE model, split up per module

    Each layer first runs the previous one on the same output vector, then
    computes its reaction fluxes from [x] and executes its block of writes.
    The fluxes, local [double]s in the source, are functions of [x] here,
    one name space per layer. *)

Module FluxCaMKII.
Definition v1 (x : vec) := 7.75 * pow (x Ca) 3 - x CaCaM.
Definition v2 (x : vec) := 5.0 * x Ng * x CaM - x NgCaM.
Definition v3 (x : vec) := x CaMKII * x Factin - 4.0 * x CaMKIIFactin.
Definition v4 (x : vec) := x CaMKII * x Gactin - 4.0 * x CaMKIIGactin.
Definition v5 (x : vec) :=
  (120.0 * pow (x CaCaM) 4 * x CaMKII) / (pow 4.0 4 + pow (x CaCaM) 4)
  + (x CaMKIIp * x CaMKII) / (10.0 + x CaMKII).
Definition v6 (x : vec) := (15.0 * x PP1act * x CaMKIIp) / (3.0 + x CaMKIIp).
Definition v7 (x : vec) :=
  (127.0 * pow (x CaCaM) 4 * x CaN) / (pow 0.34 4 + pow (x CaCaM) 4).
Definition v8 (x : vec) := (0.34 * x CaMKIIp * x CaN) / (127.0 + x CaN).
Definition v9 (x : vec) := (0.034 * x CaNact * x I1) / (4.97 + x I1).
Definition v10 (x : vec) := (0.0688 * x CaMKIIp * x I1act) / (127.0 + x I1act).
Definition v11 (x : vec) :=
  (50.0 * x I1act * x PP1) / (80.0 + x PP1)
  + (2.0 * x PP1act * x PP1) / (80.0 + x PP1).
Definition v12 (x : vec) := (0.07166 * x CaMKIIp * x PP1act) / (4.97 + x PP1act).
End FluxCaMKII.

Definition blockCaMKII (v1 v2 v3 v4 v5 v6 v7 v8 v9 v10 v11 v12 : R)
  : list write :=
  [ Ca ::= -3.0 * v1;
    CaM ::= -v1 - v2;
    CaCaM ::= v1;
    Ng ::= -v2;
    NgCaM ::= v2;
    CaMKII ::= -v3 - v4 - v5 + v6;
    Factin ::= -v3;
    CaMKIIFactin ::= v3;
    Gactin ::= -v4;
    CaMKIIGactin ::= v4;
    CaMKIIp ::= v5 - v6;
    CaN ::= -v7 + v8;
    CaNact ::= v7 - v8;
    I1 ::= -v9 + v10;
    I1act ::= v9 - v10;
    PP1 ::= -v11 + v12;
    PP1act ::= v11 - v12 ]%write.

Definition writesCaMKII (x : vec) : list write :=
  blockCaMKII
    (FluxCaMKII.v1 x) (FluxCaMKII.v2 x) (FluxCaMKII.v3 x)
    (FluxCaMKII.v4 x) (FluxCaMKII.v5 x) (FluxCaMKII.v6 x)
    (FluxCaMKII.v7 x) (FluxCaMKII.v8 x) (FluxCaMKII.v9 x)
    (FluxCaMKII.v10 x) (FluxCaMKII.v11 x) (FluxCaMKII.v12 x).

Definition rhsCaMKII (t : R) (x dxdt : vec) : vec :=
  store dxdt (writesCaMKII x).

Module FluxArp23.
Definition v1 (x : vec) := (0.01 * x CaMKIIp * x Cdc42GEF) / (1.0 + x Cdc42GEF).
Definition v2 (x : vec) := (0.01 * x PP1act * x Cdc42GEFact) / (1.0 + x Cdc42GEFact).
Definition v3 (x : vec) := (0.75 * x Cdc42GEFact * x Cdc42GDP) / (1.0 + x Cdc42GDP).
Definition v4 (x : vec) := (0.1 * x GAPact * x Cdc42GTP) / (1.0 + x Cdc42GTP).
Definition v5 (x : vec) := (0.01 * x CaMKIIp * x GAP) / (1.0 + x GAP).
Definition v6 (x : vec) := (0.01 * x PP1act * x GAPact) / (1.0 + x GAPact).
Definition v7 (x : vec) := 0.02 * x Cdc42GTP * x WASP - 0.001 * x WASPact.
Definition v8 (x : vec) := 0.1 * x Arp23 * x WASPact - 0.0 * x Arp23act.
End FluxArp23.

Definition blockArp23 (v1 v2 v3 v4 v5 v6 v7 v8 : R) : list write :=
  [ Cdc42GEF ::= -v1 + v2;
    Cdc42GEFact ::= v1 - v2;
    Cdc42GDP ::= -v3 + v4;
    Cdc42GTP ::= v3 - v4 - v7;
    GAP ::= -v5 + v6;
    GAPact ::= v5 - v6;
    WASP ::= -v7;
    WASPact ::= v7 - v8;
    Arp23 ::= -v8;
    Arp23act ::= v8 ]%write.

Definition writesArp23 (x : vec) : list write :=
  blockArp23
    (FluxArp23.v1 x) (FluxArp23.v2 x) (FluxArp23.v3 x)
    (FluxArp23.v4 x) (FluxArp23.v5 x) (FluxArp23.v6 x)
    (FluxArp23.v7 x) (FluxArp23.v8 x).

Definition rhsArp23 (t : R) (x dxdt : vec) : vec :=
  let dxdt := rhsCaMKII t x dxdt in
  store dxdt (writesArp23 x).

Module FluxCofilin.
Definition v1 (x : vec) := (0.34 * x CaNact * x SSH1) / (4.97 + x SSH1).
Definition v2 (x : vec) := (127 * x CaMKIIp * x SSH1act) / (0.34 + x SSH1act).
Definition v3 (x : vec) := (0.9 * x ROCKact * x LIMK) / (0.3 + x LIMK).
Definition v4 (x : vec) := (0.34 * x SSH1act * x LIMKact) / (4.0 + x LIMKact).
Definition v5 (x : vec) := (0.34 * x SSH1act * x Cofilin) / (4.0 + x Cofilin).
Definition v6 (x : vec) := (0.34 * x LIMKact * x Cofilinact) / (4.0 + x Cofilinact).
End FluxCofilin.

Definition blockCofilin (v1 v2 v3 v4 v5 v6 : R) : list write :=
  [ SSH1 ::= -v1 + v2;
    SSH1act ::= v1 - v2;
    LIMK ::= -v3 + v4;
    LIMKact ::= v3 - v4;
    Cofilin ::= -v5 + v6;
    Cofilinact ::= v5 - v6 ]%write.

Definition writesCofilin (x : vec) : list write :=
  blockCofilin
    (FluxCofilin.v1 x) (FluxCofilin.v2 x) (FluxCofilin.v3 x)
    (FluxCofilin.v4 x) (FluxCofilin.v5 x) (FluxCofilin.v6 x).

Definition rhsCofilin (t : R) (x dxdt : vec) : vec :=
  let dxdt := rhsArp23 t x dxdt in
  store dxdt (writesCofilin x).

Module FluxActin.
(** The severing and nucleation functions. *)
Definition fsev (x : vec) :=
  (0.1 * 0.0002 * pow (x Cofilinact) 4 * x Factin) / 0.0001.
Definition fnuc (x : vec) :=
  (15.3 * x Arp23act * x Factin * x Gactin) / (2.0 + x Arp23act).
(** The function of membrane velocity. *)
Definition vmb (x : vec) := 0.1 * x Bp / (x Bp + 10.0 * exp (50.0 / x Bp)).
Definition v1 (x : vec) := 0.001 * x Fnewactin.
Definition v2 (x : vec) := fsev x + 0.1 * x Factin + 0.01 * x Factin.
Definition v3 (x : vec) := fnuc x.
Definition v4 (x : vec) := 106.0 * (fsev x + fnuc x) - 0.04 * x B.
Definition v5 (x : vec) := (0.1 - vmb x) * x B - 0.04 * x Bp.
End FluxActin.

Definition blockActin (v1 v2 v3 v4 v5 : R) : list write :=
  [ Fnewactin ::= -v1;
    Factin +:= v1 - v2;
    Gactin +:= v2 - v3;
    Arp23act +:= -v3;
    B ::= v4;
    Bp ::= v5 ]%write.

Definition writesActin (x : vec) : list write :=
  blockActin
    (FluxActin.v1 x) (FluxActin.v2 x) (FluxActin.v3 x)
    (FluxActin.v4 x) (FluxActin.v5 x).

Definition rhsActin (t : R) (x dxdt : vec) : vec :=
  let dxdt := rhsCofilin t x dxdt in
  store dxdt (writesActin x).

Module FluxRho.
(** [v1] divides by [1.0 + RhoGEF], the enumerator, not [x[RhoGEF]]. *)
Definition v1 (x : vec) := (0.01 * x CaMKIIp * x RhoGEF) / (1.0 + enum_value RhoGEF).
Definition v2 (x : vec) := (0.1 * x PP1act * x RhoGEFact) / (1.0 + x RhoGEFact).
Definition v3 (x : vec) := (0.75 * x RhoGEFact * x RhoGDP) / (1.0 + x RhoGDP).
Definition v4 (x : vec) := (0.1 * x GAPact * x RhoGTP) / (1.0 + x RhoGTP).
Definition v5 (x : vec) := 0.02 * x RhoGTP * x ROCK - 0.001 * x ROCKact.
Definition v6 (x : vec) :=
  0.01 * x MyoPpase + (3.0 * x MyoPpaseact * x MyoPpase) / (16.0 + x MyoPpase).
Definition v7 (x : vec) := (2.357 * x ROCKact * x MyoPpaseact) / (0.1 + x MyoPpaseact).
Definition v8 (x : vec) := 0.01 * x MLC + (1.8 * x ROCKact * x MLC) / (2.47 + x MLC).
Definition v9 (x : vec) := (1.0 * x MyoPpaseact * x MLCact) / (16.0 + x MLCact).
End FluxRho.

Definition blockRho (v1 v2 v3 v4 v5 v6 v7 v8 v9 : R) : list write :=
  [ RhoGEF ::= -v1 + v2;
    RhoGEFact ::= v1 - v2;
    RhoGDP ::= -v3 + v4;
    RhoGTP ::= v3 - v4 - v5;
    ROCK ::= -v5;
    ROCKact ::= v5;
    MyoPpase ::= -v6 + v7;
    MyoPpaseact ::= v6 - v7;
    MLC ::= -v8 + v9;
    MLCact ::= v8 - v9 ]%write.

Definition writesRho (x : vec) : list write :=
  blockRho
    (FluxRho.v1 x) (FluxRho.v2 x) (FluxRho.v3 x)
    (FluxRho.v4 x) (FluxRho.v5 x) (FluxRho.v6 x)
    (FluxRho.v7 x) (FluxRho.v8 x) (FluxRho.v9 x).

Definition rhs (t : R) (x dxdt : vec) : vec :=
  let dxdt := rhsActin t x dxdt in
  store dxdt (writesRho x).

(** The whole sequence of writes of one call of [rhs], in execution order. *)
Definition writes (x : vec) : list write :=
  writesCaMKII x ++ writesArp23 x ++ writesCofilin x ++ writesActin x
  ++ writesRho x.

(** ** ODE integration routine *)

Definition kdShrinkMax : R := 0.1.
Definition kdGrowMax : R := 1.2.
Definition kdSafety : R := 0.9.
Definition kdMinH : R := 1.0e-6.

(** The four reference parameters of [bogackiShampineStepper]. *)
Record step : Type := Step {
  st_t : R;
  st_x : vec;
  st_dxdt1 : vec;
  st_h : R
}.

(** How a call ends: [return false], [return true], or the
    [std::runtime_error]; the referenced variables as the call leaves them. *)
Inductive outcome : Type :=
| Returned (accepted : bool) (s : step)
| Thrown (what : string) (s : step).

Definition underflow : string :=
  "step size underflow in bogackiShampineStepper().".

Definition final (o : outcome) : step :=
  match o with Returned _ s => s | Thrown _ s => s end.

Section Stepper.

(** The derivative routine the stepper calls: time, state, output vector. *)
Variable f : R -> vec -> vec -> vec.

Section Stages.

Variable s : step.
Let t := st_t s.
Let x := st_x s.
Let dxdt1 := st_dxdt1 s.
Let h := st_h s.

(* step 2 *)
Definition xtmp2 : vec := fun i => x i + 0.5 * h * dxdt1 i.
Definition dxdt2 : vec := f (t + 0.5 * h) xtmp2 zeros.

(* step 3 *)
Definition xtmp3 : vec := fun i => x i + 0.75 * h * dxdt2 i.
Definition dxdt3 : vec := f (t + 0.75 * h) xtmp3 zeros.

(* step 4 *)
Definition xtmp4 : vec :=
  fun i => x i + (1.0 / 9.0) * h
                 * (2.0 * dxdt1 i + 3.0 * dxdt2 i + 4.0 * dxdt3 i).
Definition dxdt4 : vec := f (t + h) xtmp4 zeros.

(** The last loop: the solution propagated by the lowest order method ... *)
Definition xnew : vec :=
  fun i => x i + h / 24.0
                 * (7.0 * dxdt1 i + 6.0 * dxdt2 i + 8.0 * dxdt3 i
                    + 3.0 * dxdt4 i).

(** ... and the running maximum of the scaled error. *)
Definition erri (i : Variables) : R :=
  Rabs (h * ((5.0 / 72.0) * dxdt1 i - (1.0 / 12.0) * dxdt2 i
             - (1.0 / 9.0) * dxdt3 i + (1.0 / 8.0) * dxdt4 i))
  / tolerance.

Definition errStep (errMax : R) (i : Variables) : R :=
  if Rgt_dec (erri i) errMax then erri i else errMax.

Definition errMax : R := fold_left errStep variables 0.0.

(* Adjust step size *)
Definition fct : R :=
  if Rgt_dec errMax 0.0
  then kdSafety / Rpower errMax (1.0 / 3.0)
  else kdGrowMax.

Definition stepper : outcome :=
  if Rgt_dec errMax 1.0 then
    (* Reduce step size and reject step *)
    let h' := if Rlt_dec fct kdShrinkMax then h * kdShrinkMax
              else h * fct in
    let s' := Step t x dxdt1 h' in
    if Rlt_dec h' kdMinH
    then Thrown underflow s'
    else Returned false s'
  else
    (* Update solution and increase step size *)
    let h' := if Rgt_dec fct kdGrowMax then h * kdGrowMax
              else h * fct in
    Returned true (Step (t + h) xnew dxdt4 h').

End Stages.
End Stepper.

Definition bogackiShampineStepper (s : step) : outcome := stepper rhs s.

(** The variables as a rejecting call leaves them: only [h] has changed. *)
Definition rejected (f : R -> vec -> vec -> vec) (s : step) : step :=
  Step (st_t s) (st_x s) (st_dxdt1 s)
       (st_h s * Rmax (fct f s) kdShrinkMax).

(** The variables as an accepting call leaves them. *)
Definition advanced (f : R -> vec -> vec -> vec) (s : step) : step :=
  Step (st_t s + st_h s) (xnew f s) (dxdt4 f s)
       (st_h s * Rmin (fct f s) kdGrowMax).

(** ** Function main() *)

(** The initial conditions: all zero, then the entries of Table S8. *)
Definition x0 : vec :=
  store zeros
    [ Ca ::= 1.0;
      CaMKIIFactin ::= 10.0;
      CaMKIIGactin ::= 10.0;
      CaN ::= 1.0;
      CaM ::= 10.0;
      Ng ::= 20.0;
      I1 ::= 1.8;
      PP1 ::= 0.27;
      WASP ::= 1.0;
      Arp23 ::= 1.0;
      Cdc42GDP ::= 1.0;
      Cdc42GEF ::= 0.1;
      LIMK ::= 2.0;
      SSH1 ::= 2.0;
      Cofilin ::= 2.0;
      Bp ::= 1.0;
      B ::= 30.0;
      MyoPpaseact ::= 0.1;
      RhoGEF ::= 0.1;
      RhoGDP ::= 1.0;
      ROCK ::= 1.0;
      MyoPpase ::= 1.1;
      MLC ::= 5.0;
      GAP ::= 0.1 ]%write.

(** The variables of the integration loop.  [ofs] holds the data rows
    written so far, oldest first: the time and the state of each sample
    (the header line with the names is written before the loop). *)
Record driver : Type := Driver {
  dr_t : R;
  dr_tsav : R;
  dr_dt : R;
  dr_x : vec;
  dr_dxdt1 : vec;
  nOK : nat;
  nStep : nat;
  dtMin : R;
  dtMax : R;
  ofs : list (R * vec)
}.

(** Step 1 once, then the loop variables at their initial values; [main]
    starts from [x0] with [dt = dt0]. *)
Definition start (xinit : vec) (dtinit : R) : driver :=
  let dxdt1 := rhs 0.0 xinit zeros in
  Driver 0.0 0.0 dtinit xinit dxdt1 0 0 dt0 kdMinH [].

(** One pass through the body of the [for] loop and its [++nStep];
    [inr] carries the message of the exception. *)
Definition iteration (d : driver) : driver + string :=
  match bogackiShampineStepper
          (Step (dr_t d) (dr_x d) (dr_dxdt1 d) (dr_dt d)) with
  | Thrown what _ => inr what
  | Returned accepted s =>
      let t := st_t s in
      let x := st_x s in
      let dt := st_h s in
      let nOK := if accepted then S (nOK d) else nOK d in
      let dtMin' := if Rlt_dec dt (dtMin d) then dt else dtMin d in
      let dtMax' := if Rlt_dec dt (dtMin d) then dtMax d
                    else if Rgt_dec dt (dtMax d) then dt else dtMax d in
      let '(ofs', tsav) :=
        if Rgt_dec t (dr_tsav d)
        then (ofs d ++ [(t, x)], dr_tsav d + dtsav)
        else (ofs d, dr_tsav d) in
      inl (Driver t tsav dt x (st_dxdt1 s) nOK (S (nStep d))
                  dtMin' dtMax' ofs')
  end.

(** How the run stands after at most [n] iterations. *)
Inductive run : Type :=
| Completed (d : driver)        (* left the loop with [t >= tEnd] *)
| Failed (what : string)        (* exception caught, [EXIT_FAILURE] *)
| Running (d : driver).         (* still [t < tEnd] after [n] iterations *)

Fixpoint loop (n : nat) (d : driver) : run :=
  if Rlt_dec (dr_t d) tEnd then
    match n with
    | O => Running d
    | S n' =>
        match iteration d with
        | inl d' => loop n' d'
        | inr what => Failed what
        end
    end
  else Completed d.

Definition main (n : nat) : run := loop n (start x0 dt0).

(** ** The derivative of each species

    What one call of [rhs] leaves in each slot, read off the five blocks. *)

Definition derivative (x : vec) (i : Variables) : R :=
  match i with
  | Ca => -3.0 * FluxCaMKII.v1 x
  | CaM => - FluxCaMKII.v1 x - FluxCaMKII.v2 x
  | CaCaM => FluxCaMKII.v1 x
  | Ng => - FluxCaMKII.v2 x
  | NgCaM => FluxCaMKII.v2 x
  | CaMKII =>
      - FluxCaMKII.v3 x - FluxCaMKII.v4 x - FluxCaMKII.v5 x + FluxCaMKII.v6 x
  | Factin => - FluxCaMKII.v3 x + (FluxActin.v1 x - FluxActin.v2 x)
  | CaMKIIFactin => FluxCaMKII.v3 x
  | Gactin => - FluxCaMKII.v4 x + (FluxActin.v2 x - FluxActin.v3 x)
  | CaMKIIGactin => FluxCaMKII.v4 x
  | CaMKIIp => FluxCaMKII.v5 x - FluxCaMKII.v6 x
  | CaN => - FluxCaMKII.v7 x + FluxCaMKII.v8 x
  | CaNact => FluxCaMKII.v7 x - FluxCaMKII.v8 x
  | I1 => - FluxCaMKII.v9 x + FluxCaMKII.v10 x
  | I1act => FluxCaMKII.v9 x - FluxCaMKII.v10 x
  | PP1 => - FluxCaMKII.v11 x + FluxCaMKII.v12 x
  | PP1act => FluxCaMKII.v11 x - FluxCaMKII.v12 x
  | Cdc42GEF => - FluxArp23.v1 x + FluxArp23.v2 x
  | Cdc42GEFact => FluxArp23.v1 x - FluxArp23.v2 x
  | Cdc42GDP => - FluxArp23.v3 x + FluxArp23.v4 x
  | Cdc42GTP => FluxArp23.v3 x - FluxArp23.v4 x - FluxArp23.v7 x
  | GAP => - FluxArp23.v5 x + FluxArp23.v6 x
  | GAPact => FluxArp23.v5 x - FluxArp23.v6 x
  | WASP => - FluxArp23.v7 x
  | WASPact => FluxArp23.v7 x - FluxArp23.v8 x
  | Arp23 => - FluxArp23.v8 x
  | Arp23act => FluxArp23.v8 x + - FluxActin.v3 x
  | SSH1 => - FluxCofilin.v1 x + FluxCofilin.v2 x
  | SSH1act => FluxCofilin.v1 x - FluxCofilin.v2 x
  | LIMK => - FluxCofilin.v3 x + FluxCofilin.v4 x
  | LIMKact => FluxCofilin.v3 x - FluxCofilin.v4 x
  | Cofilin => - FluxCofilin.v5 x + FluxCofilin.v6 x
  | Cofilinact => FluxCofilin.v5 x - FluxCofilin.v6 x
  | Fnewactin => - FluxActin.v1 x
  | B => FluxActin.v4 x
  | Bp => FluxActin.v5 x
  | RhoGEF => - FluxRho.v1 x + FluxRho.v2 x
  | RhoGEFact => FluxRho.v1 x - FluxRho.v2 x
  | RhoGDP => - FluxRho.v3 x + FluxRho.v4 x
  | RhoGTP => FluxRho.v3 x - FluxRho.v4 x - FluxRho.v5 x
  | ROCK => - FluxRho.v5 x
  | ROCKact => FluxRho.v5 x
  | MyoPpase => - FluxRho.v6 x + FluxRho.v7 x
  | MyoPpaseact => FluxRho.v6 x - FluxRho.v7 x
  | MLC => - FluxRho.v8 x + FluxRho.v9 x
  | MLCact => FluxRho.v8 x - FluxRho.v9 x
  end.

(** ** The write discipline of the layers *)

(** The first write to slot [i] in [ws] exists and is an assignment. *)
Fixpoint covered (ws : list write) (i : Variables) : bool :=
  match ws with
  | [] => false
  | w :: ws' => if same_slot (slot w) i then is_assign w else covered ws' i
  end.

Definition assigns_to (i : Variables) (w : write) : bool :=
  is_assign w && same_slot (slot w) i.

Definition accumulations (ws : list write) : list Variables :=
  map slot (filter (fun w => negb (is_assign w)) ws).

(** ** Conserved pairs *)

(** The pairs (species, activated form) whose two derivatives are written
    as [-v + w] and [v - w] (or [-v] and [v]) from the same fluxes. *)
Definition conserved_pairs : list (Variables * Variables) :=
  [ (CaN, CaNact); (I1, I1act); (PP1, PP1act);
    (Cdc42GEF, Cdc42GEFact); (GAP, GAPact);
    (SSH1, SSH1act); (LIMK, LIMKact); (Cofilin, Cofilinact);
    (RhoGEF, RhoGEFact); (ROCK, ROCKact); (MyoPpase, MyoPpaseact);
    (MLC, MLCact) ].

(** [X] is an exact trajectory of the model: every component is
    differentiable at every time, with the derivative [rhs] computes. *)
Definition trajectory (X : R -> vec) : Prop :=
  forall (t : R) (i : Variables),
    derivable_pt_lim (fun s => X s i) t (rhs t (X t) zeros i).

(** For comparison only, not part of the program: the first Rho-layer
    flux in the saturating form of its neighbours, dividing by
    [1.0 + x[RhoGEF]]. *)
Definition v1_saturating (x : vec) : R :=
  (0.01 * x CaMKIIp * x RhoGEF) / (1.0 + x RhoGEF).

(** ** States with a single active species

    With every concentration zero except [Bp], every flux but the decay
    term [0.04 * x[Bp]] of the membrane layer vanishes, so the model runs
    the scalar equation [dBp/dt = -0.04 Bp].  Such states serve as concrete
    inputs on which the stepper can be evaluated exactly. *)

Definition bp_only (x : vec) : Prop := forall i, i <> Bp -> x i = 0.

Definition bp_state (y : R) : vec := upd zeros Bp y.

(** The arguments of the first stepper call of a run started from
    [bp_state y] with initial step size [h]. *)
Definition bp_step (y h : R) : step :=
  Step 0.0 (bp_state y) (rhs 0.0 (bp_state y) zeros) h.

(** The stage values of the stepper for the scalar equation, from the
    current value [y], its derivative [k] and the step size [h]. *)
Definition bp_k2 (y k h : R) : R := -0.04 * (y + 0.5 * h * k).
Definition bp_k3 (y k h : R) : R := -0.04 * (y + 0.75 * h * bp_k2 y k h).
Definition bp_k4 (y k h : R) : R :=
  -0.04 * (y + (1.0 / 9.0) * h
               * (2.0 * k + 3.0 * bp_k2 y k h + 4.0 * bp_k3 y k h)).
Definition bp_new (y k h : R) : R :=
  y + h / 24.0 * (7.0 * k + 6.0 * bp_k2 y k h + 8.0 * bp_k3 y k h
                  + 3.0 * bp_k4 y k h).
Definition bp_err (y k h : R) : R :=
  Rabs (h * ((5.0 / 72.0) * k - (1.0 / 12.0) * bp_k2 y k h
             - (1.0 / 9.0) * bp_k3 y k h + (1.0 / 8.0) * bp_k4 y k h))
  / tolerance.

(** ** Evaluation with checked divisions

    The same evaluator with every [/] of the source replaced by a division
    that fails on a zero divisor; [None] means that some division of the
    call had a zero denominator.  Fluxes without a division are shared
    with the evaluator above. *)

Definition checked_div (a b : R) : option R :=
  if Req_dec_T b 0 then None else Some (a / b).

Definition bind {A C : Type} (m : option A) (k : A -> option C) : option C :=
  match m with Some a => k a | None => None end.

Notation "x <- m ;; k" := (bind m (fun x => k))
  (at level 61, m at next level, right associativity).

Module CheckedCaMKII.
Definition v5 (x : vec) : option R :=
  a <- checked_div (120.0 * pow (x CaCaM) 4 * x CaMKII)
                   (pow 4.0 4 + pow (x CaCaM) 4) ;;
  b <- checked_div (x CaMKIIp * x CaMKII) (10.0 + x CaMKII) ;;
  Some (a + b).
Definition v6 (x : vec) : option R :=
  checked_div (15.0 * x PP1act * x CaMKIIp) (3.0 + x CaMKIIp).
Definition v7 (x : vec) : option R :=
  checked_div (127.0 * pow (x CaCaM) 4 * x CaN)
              (pow 0.34 4 + pow (x CaCaM) 4).
Definition v8 (x : vec) : option R :=
  checked_div (0.34 * x CaMKIIp * x CaN) (127.0 + x CaN).
Definition v9 (x : vec) : option R :=
  checked_div (0.034 * x CaNact * x I1) (4.97 + x I1).
Definition v10 (x : vec) : option R :=
  checked_div (0.0688 * x CaMKIIp * x I1act) (127.0 + x I1act).
Definition v11 (x : vec) : option R :=
  a <- checked_div (50.0 * x I1act * x PP1) (80.0 + x PP1) ;;
  b <- checked_div (2.0 * x PP1act * x PP1) (80.0 + x PP1) ;;
  Some (a + b).
Definition v12 (x : vec) : option R :=
  checked_div (0.07166 * x CaMKIIp * x PP1act) (4.97 + x PP1act).
End CheckedCaMKII.

Definition rhsCaMKII_checked (t : R) (x dxdt : vec) : option vec :=
  v5 <- CheckedCaMKII.v5 x ;;
  v6 <- CheckedCaMKII.v6 x ;;
  v7 <- CheckedCaMKII.v7 x ;;
  v8 <- CheckedCaMKII.v8 x ;;
  v9 <- CheckedCaMKII.v9 x ;;
  v10 <- CheckedCaMKII.v10 x ;;
  v11 <- CheckedCaMKII.v11 x ;;
  v12 <- CheckedCaMKII.v12 x ;;
  Some (store dxdt
          (blockCaMKII (FluxCaMKII.v1 x) (FluxCaMKII.v2 x) (FluxCaMKII.v3 x)
                       (FluxCaMKII.v4 x) v5 v6 v7 v8 v9 v10 v11 v12)).

Module CheckedArp23.
Definition v1 (x : vec) : option R :=
  checked_div (0.01 * x CaMKIIp * x Cdc42GEF) (1.0 + x Cdc42GEF).
Definition v2 (x : vec) : option R :=
  checked_div (0.01 * x PP1act * x Cdc42GEFact) (1.0 + x Cdc42GEFact).
Definition v3 (x : vec) : option R :=
  checked_div (0.75 * x Cdc42GEFact * x Cdc42GDP) (1.0 + x Cdc42GDP).
Definition v4 (x : vec) : option R :=
  checked_div (0.1 * x GAPact * x Cdc42GTP) (1.0 + x Cdc42GTP).
Definition v5 (x : vec) : option R :=
  checked_div (0.01 * x CaMKIIp * x GAP) (1.0 + x GAP).
Definition v6 (x : vec) : option R :=
  checked_div (0.01 * x PP1act * x GAPact) (1.0 + x GAPact).
End CheckedArp23.

Definition rhsArp23_checked (t : R) (x dxdt : vec) : option vec :=
  dxdt <- rhsCaMKII_checked t x dxdt ;;
  v1 <- CheckedArp23.v1 x ;;
  v2 <- CheckedArp23.v2 x ;;
  v3 <- CheckedArp23.v3 x ;;
  v4 <- CheckedArp23.v4 x ;;
  v5 <- CheckedArp23.v5 x ;;
  v6 <- CheckedArp23.v6 x ;;
  Some (store dxdt
          (blockArp23 v1 v2 v3 v4 v5 v6 (FluxArp23.v7 x) (FluxArp23.v8 x))).

Module CheckedCofilin.
Definition v1 (x : vec) : option R :=
  checked_div (0.34 * x CaNact * x SSH1) (4.97 + x SSH1).
Definition v2 (x : vec) : option R :=
  checked_div (127 * x CaMKIIp * x SSH1act) (0.34 + x SSH1act).
Definition v3 (x : vec) : option R :=
  checked_div (0.9 * x ROCKact * x LIMK) (0.3 + x LIMK).
Definition v4 (x : vec) : option R :=
  checked_div (0.34 * x SSH1act * x LIMKact) (4.0 + x LIMKact).
Definition v5 (x : vec) : option R :=
  checked_div (0.34 * x SSH1act * x Cofilin) (4.0 + x Cofilin).
Definition v6 (x : vec) : option R :=
  checked_div (0.34 * x LIMKact * x Cofilinact) (4.0 + x Cofilinact).
End CheckedCofilin.

Definition rhsCofilin_checked (t : R) (x dxdt : vec) : option vec :=
  dxdt <- rhsArp23_checked t x dxdt ;;
  v1 <- CheckedCofilin.v1 x ;;
  v2 <- CheckedCofilin.v2 x ;;
  v3 <- CheckedCofilin.v3 x ;;
  v4 <- CheckedCofilin.v4 x ;;
  v5 <- CheckedCofilin.v5 x ;;
  v6 <- CheckedCofilin.v6 x ;;
  Some (store dxdt (blockCofilin v1 v2 v3 v4 v5 v6)).

Module CheckedActin.
Definition fsev (x : vec) : option R :=
  checked_div (0.1 * 0.0002 * pow (x Cofilinact) 4 * x Factin) 0.0001.
Definition fnuc (x : vec) : option R :=
  checked_div (15.3 * x Arp23act * x Factin * x Gactin) (2.0 + x Arp23act).
Definition vmb (x : vec) : option R :=
  q <- checked_div 50.0 (x Bp) ;;
  checked_div (0.1 * x Bp) (x Bp + 10.0 * exp q).
End CheckedActin.

Definition rhsActin_checked (t : R) (x dxdt : vec) : option vec :=
  dxdt <- rhsCofilin_checked t x dxdt ;;
  fsev <- CheckedActin.fsev x ;;
  fnuc <- CheckedActin.fnuc x ;;
  vmb <- CheckedActin.vmb x ;;
  let v1 := 0.001 * x Fnewactin in
  let v2 := fsev + 0.1 * x Factin + 0.01 * x Factin in
  let v3 := fnuc in
  let v4 := 106.0 * (fsev + fnuc) - 0.04 * x B in
  let v5 := (0.1 - vmb) * x B - 0.04 * x Bp in
  Some (store dxdt (blockActin v1 v2 v3 v4 v5)).

Module CheckedRho.
Definition v1 (x : vec) : option R :=
  checked_div (0.01 * x CaMKIIp * x RhoGEF) (1.0 + enum_value RhoGEF).
Definition v2 (x : vec) : option R :=
  checked_div (0.1 * x PP1act * x RhoGEFact) (1.0 + x RhoGEFact).
Definition v3 (x : vec) : option R :=
  checked_div (0.75 * x RhoGEFact * x RhoGDP) (1.0 + x RhoGDP).
Definition v4 (x : vec) : option R :=
  checked_div (0.1 * x GAPact * x RhoGTP) (1.0 + x RhoGTP).
Definition v6 (x : vec) : option R :=
  q <- checked_div (3.0 * x MyoPpaseact * x MyoPpase) (16.0 + x MyoPpase) ;;
  Some (0.01 * x MyoPpase + q).
Definition v7 (x : vec) : option R :=
  checked_div (2.357 * x ROCKact * x MyoPpaseact) (0.1 + x MyoPpaseact).
Definition v8 (x : vec) : option R :=
  q <- checked_div (1.8 * x ROCKact * x MLC) (2.47 + x MLC) ;;
  Some (0.01 * x MLC + q).
Definition v9 (x : vec) : option R :=
  checked_div (1.0 * x MyoPpaseact * x MLCact) (16.0 + x MLCact).
End CheckedRho.

Definition rhs_checked (t : R) (x dxdt : vec) : option vec :=
  dxdt <- rhsActin_checked t x dxdt ;;
  v1 <- CheckedRho.v1 x ;;
  v2 <- CheckedRho.v2 x ;;
  v3 <- CheckedRho.v3 x ;;
  v4 <- CheckedRho.v4 x ;;
  v6 <- CheckedRho.v6 x ;;
  v7 <- CheckedRho.v7 x ;;
  v8 <- CheckedRho.v8 x ;;
  v9 <- CheckedRho.v9 x ;;
  Some (store dxdt (blockRho v1 v2 v3 v4 (FluxRho.v5 x) v6 v7 v8 v9)).

(** Concentrations are non-negative. *)
Definition nonneg (x : vec) : Prop := forall i, 0 <= x i.

(** The arguments the loop body passes to the stepper. *)
Definition call (d : driver) : step :=
  Step (dr_t d) (dr_x d) (dr_dxdt1 d) (dr_dt d).

(** An exact trajectory of the model: [Bp] decays from 1 at rate 0.04 and
    every other species stays at zero. *)
Definition bp_decay (t : R) : vec := bp_state (exp (-0.04 * t)).

(** ** Linear combinations of species, and the run report *)

(** [c1 * x[i1] + ... + cn * x[in]] for a list of (coefficient, species). *)
Definition combo (m : list (R * Variables)) (x : vec) : R :=
  fold_right (fun ci acc => fst ci * x (snd ci) + acc) 0 m.

(** Totals whose derivative cancels flux by flux in the blocks of writes:
    calcium, calmodulin, neurogranin, CaMKII, the Cdc42/WASP/Arp2/3 chain
    and the Rho/ROCK chain. *)
Definition moieties : list (list (R * Variables)) :=
  [ [ (1, Ca); (3, CaCaM) ];
    [ (1, CaM); (1, CaCaM); (1, NgCaM) ];
    [ (1, Ng); (1, NgCaM) ];
    [ (1, CaMKII); (1, CaMKIIFactin); (1, CaMKIIGactin); (1, CaMKIIp) ];
    [ (1, Cdc42GDP); (1, Cdc42GTP); (-1, WASP) ];
    [ (1, WASP); (1, WASPact); (-1, Arp23) ];
    [ (1, RhoGDP); (1, RhoGTP); (1, ROCKact) ] ].

(** The slots a block of writes touches. *)
Definition slots (ws : list write) : list Variables := map slot ws.

(** The numbers of the final report ("Report integration data"). *)
Record report : Type := Report {
  number_of_steps : nat;
  proportion_bad_steps : R;
  average_step_size : R;
  min_step_size : R;
  max_step_size : R
}.

Definition report_of (d : driver) : report :=
  Report (nStep d)
         (1.0 - INR (nOK d) * 1.0 / INR (nStep d))
         (tEnd / INR (nStep d))
         (dtMin d)
         (dtMax d).

(** The times of the rows written so far. *)
Definition sample_times (d : driver) : list R := map fst (ofs d).

(** The loop has handed [d'] back after its fuel or its condition ended
    the run, without an exception. *)
Definition reaches (n : nat) (d d' : driver) : Prop :=
  loop n d = Running d' \/ loop n d = Completed d'.

(** The loop variables of a run that sits at the state [x] with a zero
    derivative. *)
Definition resting (x : vec) (d : driver) : Prop :=
  (forall i, dr_x d i = x i) /\ (forall i, dr_dxdt1 d i = 0).

(** * Properties *)

(** ** The enumeration *)

Lemma variables_length : length variables = nvar.
Proof. reflexivity. Qed.

Lemma enum_nth (v : Variables) : nth_error variables (enum v) = Some v.
Proof. destruct v; reflexivity. Qed.

Lemma enum_inj (i j : Variables) : enum i = enum j -> i = j.
Proof.
  intros E. pose proof (enum_nth i) as Hi. rewrite E, enum_nth in Hi.
  congruence.
Qed.

Lemma variables_all (v : Variables) : In v variables.
Proof. eapply nth_error_In, enum_nth. Qed.

Lemma same_slot_true (i j : Variables) : same_slot i j = true <-> i = j.
Proof.
  unfold same_slot. rewrite Nat.eqb_eq. split.
  - apply enum_inj.
  - now intros ->.
Qed.

Lemma upd_same (d : vec) (i : Variables) (v : R) : upd d i v i = v.
Proof. unfold upd, same_slot. now rewrite Nat.eqb_refl. Qed.

Lemma upd_other (d : vec) (i j : Variables) (v : R) :
  i <> j -> upd d i v j = d j.
Proof.
  intros N. unfold upd. destruct (same_slot i j) eqn:E; [|reflexivity].
  apply same_slot_true in E. contradiction.
Qed.


Lemma rhs_store (t : R) (x dxdt : vec) : rhs t x dxdt = store dxdt (writes x).
Proof.
  unfold rhs, rhsActin, rhsCofilin, rhsArp23, rhsCaMKII, writes, store.
  now rewrite !fold_left_app.
Qed.

Lemma rhs_derivative (t : R) (x dxdt : vec) (i : Variables) :
  rhs t x dxdt i = derivative x i.
Proof. destruct i; reflexivity. Qed.

(** ** The write discipline of the layers *)

Lemma exec_other (d : vec) (w : write) (i : Variables) :
  same_slot (slot w) i = false -> exec d w i = d i.
Proof.
  intros E. destruct w as [j v|j v]; simpl in *; unfold upd; now rewrite E.
Qed.

(** A write reads at most its own slot of the output vector. *)
Lemma exec_agree (d d' : vec) (w : write) (i : Variables) :
  d i = d' i -> exec d w i = exec d' w i.
Proof.
  intros E. destruct w as [j v|j v]; simpl; unfold upd.
  - now destruct (same_slot j i).
  - destruct (same_slot j i) eqn:S; [|assumption].
    apply same_slot_true in S. subst j. now rewrite E.
Qed.

Lemma store_agree (ws : list write) (d d' : vec) (i : Variables) :
  d i = d' i -> store d ws i = store d' ws i.
Proof.
  revert d d'. induction ws as [|w ws IH]; intros d d' E; simpl; [exact E|].
  apply IH, exec_agree, E.
Qed.

(** Assignment before accumulation makes the old contents irrelevant. *)
Lemma store_covered (ws : list write) (d d' : vec) (i : Variables) :
  covered ws i = true -> store d ws i = store d' ws i.
Proof.
  revert d d'. induction ws as [|w ws IH]; intros d d' C; simpl in *.
  - discriminate.
  - destruct (same_slot (slot w) i) eqn:S.
    + apply store_agree. destruct w as [j v|j v]; [|discriminate].
      simpl in *. unfold upd. now rewrite S.
    + now apply IH.
Qed.

(** ** The first flux of the Rho/myosin layer *)

Lemma enum_value_RhoGEF : enum_value RhoGEF = 36.
Proof. unfold enum_value. simpl. lra. Qed.

(** C1.  The first flux of the Rho/myosin layer divides by one plus the
    enumerator [RhoGEF], the integer 36, for every state: the flux, as it
    enters the derivatives of [RhoGEFact] and [RhoGEF], is
    [0.01 * x[CaMKIIp] * x[RhoGEF] / (1.0 + 36)], and this is not the
    saturating form [0.01 * x[CaMKIIp] * x[RhoGEF] / (1.0 + x[RhoGEF])]. *)
Theorem rho_v1_divides_by_enumerator :
  enum RhoGEF = 36%nat
  /\ (forall x : vec,
        FluxRho.v1 x = 0.01 * x CaMKIIp * x RhoGEF / (1.0 + 36))
  /\ (forall (t : R) (x dxdt : vec),
        rhs t x dxdt RhoGEFact
        = 0.01 * x CaMKIIp * x RhoGEF / (1.0 + 36) - FluxRho.v2 x
        /\ rhs t x dxdt RhoGEF
           = - (0.01 * x CaMKIIp * x RhoGEF / (1.0 + 36)) + FluxRho.v2 x)
  /\ (exists x : vec, FluxRho.v1 x <> v1_saturating x).
Proof.
  assert (V : forall x : vec,
             FluxRho.v1 x = 0.01 * x CaMKIIp * x RhoGEF / (1.0 + 36)).
  { intros x. unfold FluxRho.v1. now rewrite enum_value_RhoGEF. }
  split; [reflexivity|]. split; [exact V|]. split.
  - intros t x dxdt. rewrite !rhs_derivative. simpl. rewrite V. split; reflexivity.
  - exists (upd (upd zeros CaMKIIp 1) RhoGEF 1).
    rewrite V. unfold v1_saturating.
    replace (upd (upd zeros CaMKIIp 1) RhoGEF 1 CaMKIIp) with 1 by reflexivity.
    replace (upd (upd zeros CaMKIIp 1) RhoGEF 1 RhoGEF) with 1 by reflexivity.
    lra.
Qed.

(** ** Conservation *)

Lemma derivative_conserved (x : vec) (a a' : Variables) :
  In (a, a') conserved_pairs -> derivative x a + derivative x a' = 0.
Proof.
  unfold conserved_pairs. simpl.
  intros H.
  repeat (destruct H as [H|H]; [injection H as <- <-; simpl; ring|]).
  contradiction.
Qed.

Lemma trajectory_sum_derivative (X : R -> vec) (a a' : Variables) (t : R) :
  trajectory X -> In (a, a') conserved_pairs ->
  derivable_pt_lim (fun s => X s a + X s a') t 0.
Proof.
  intros HX Hp.
  rewrite <- (derivative_conserved (X t) a a' Hp).
  rewrite <- (rhs_derivative t (X t) zeros a).
  rewrite <- (rhs_derivative t (X t) zeros a').
  apply (derivable_pt_lim_plus (fun s => X s a) (fun s => X s a')); apply HX.
Qed.

(** C4.  For every time and state, the two derivatives of each of the
    twelve conserved pairs (at least eight) add up to exactly zero, whatever
    the output vector held before; hence along every exact trajectory of the
    model the sum [A + A*] keeps its initial value. *)
Theorem conserved_pairs_sum :
  (8 <= length conserved_pairs)%nat
  /\ (forall (t : R) (x dxdt : vec) (a a' : Variables),
        In (a, a') conserved_pairs ->
        rhs t x dxdt a + rhs t x dxdt a' = 0)
  /\ (forall (X : R -> vec) (a a' : Variables),
        trajectory X -> In (a, a') conserved_pairs ->
        forall t : R, X t a + X t a' = X 0 a + X 0 a').
Proof.
  split; [simpl; lia|]. split.
  - intros t x dxdt a a' Hp. rewrite !rhs_derivative.
    now apply derivative_conserved.
  - intros X a a' HX Hp t.
    set (g := fun s => X s a + X s a').
    assert (pr : derivable g).
    { intros s. exists 0. now apply trajectory_sum_derivative. }
    apply (null_derivative_1 g pr).
    intros s. apply derive_pt_eq_0. now apply trajectory_sum_derivative.
Qed.

(** Every slot is written first by an assignment. *)
Lemma writes_covered (x : vec) (i : Variables) : covered (writes x) i = true.
Proof. destruct i; reflexivity. Qed.

Lemma writes_assign_once (x : vec) (i : Variables) :
  length (filter (assigns_to i) (writes x)) = 1%nat.
Proof. destruct i; reflexivity. Qed.

(** C8.  One call of the evaluator initialises all 46 slots: over the five
    layers each slot is assigned exactly once; the only accumulations are
    the three of the actin layer, into [Factin], [Gactin] and [Arp23act],
    whose assignments were made by the two innermost layers; in the whole
    sequence the first write to every slot is an assignment; and so the
    result does not depend on what the output vector held before. *)
Theorem rhs_initialises_every_slot (t : R) (x : vec) :
  (forall i : Variables,
     length (filter (assigns_to i) (writes x)) = 1%nat)
  /\ accumulations (writes x) = [Factin; Gactin; Arp23act]
  /\ accumulations (writesActin x) = [Factin; Gactin; Arp23act]
  /\ (forall i : Variables,
        In i [Factin; Gactin; Arp23act] ->
        covered (writesCaMKII x ++ writesArp23 x) i = true)
  /\ (forall i : Variables, covered (writes x) i = true)
  /\ (forall (dxdt dxdt' : vec) (i : Variables),
        rhs t x dxdt i = rhs t x dxdt' i).
Proof.
  split; [apply writes_assign_once|].
  split; [reflexivity|]. split; [reflexivity|]. split.
  - intros i [<-|[<-|[<-|[]]]]; reflexivity.
  - split; [apply writes_covered|].
    intros dxdt dxdt' i. rewrite !rhs_store.
    apply store_covered, writes_covered.
Qed.

(** ** The evaluator reads its state argument pointwise *)

Ltac unfold_fluxes :=
  unfold FluxCaMKII.v1, FluxCaMKII.v2, FluxCaMKII.v3, FluxCaMKII.v4,
    FluxCaMKII.v5, FluxCaMKII.v6, FluxCaMKII.v7, FluxCaMKII.v8,
    FluxCaMKII.v9, FluxCaMKII.v10, FluxCaMKII.v11, FluxCaMKII.v12,
    FluxArp23.v1, FluxArp23.v2, FluxArp23.v3, FluxArp23.v4, FluxArp23.v5,
    FluxArp23.v6, FluxArp23.v7, FluxArp23.v8,
    FluxCofilin.v1, FluxCofilin.v2, FluxCofilin.v3, FluxCofilin.v4,
    FluxCofilin.v5, FluxCofilin.v6,
    FluxActin.v1, FluxActin.v2, FluxActin.v3, FluxActin.v4, FluxActin.v5,
    FluxActin.fsev, FluxActin.fnuc, FluxActin.vmb,
    FluxRho.v1, FluxRho.v2, FluxRho.v3, FluxRho.v4, FluxRho.v5,
    FluxRho.v6, FluxRho.v7, FluxRho.v8, FluxRho.v9 in *.

Lemma derivative_ext (x x' : vec) (i : Variables) :
  (forall j, x j = x' j) -> derivative x i = derivative x' i.
Proof.
  intros E. destruct i; simpl; unfold_fluxes; now rewrite ?E.
Qed.

Lemma rhs_ext (t t' : R) (x x' dxdt dxdt' : vec) (i : Variables) :
  (forall j, x j = x' j) -> rhs t x dxdt i = rhs t' x' dxdt' i.
Proof. intros E. rewrite !rhs_derivative. now apply derivative_ext. Qed.

(** ** The error maximum *)

Lemma tolerance_pos : 0 < tolerance.
Proof. unfold tolerance. lra. Qed.

Section ErrMax.

Variable f : R -> vec -> vec -> vec.
Variable s : step.

Lemma erri_nonneg (i : Variables) : 0 <= erri f s i.
Proof.
  unfold erri. apply Rmult_le_pos; [apply Rabs_pos|].
  left. apply Rinv_0_lt_compat, tolerance_pos.
Qed.

Lemma errStep_max (m : R) (i : Variables) : errStep f s m i = Rmax m (erri f s i).
Proof.
  unfold errStep, Rmax.
  destruct (Rgt_dec (erri f s i) m), (Rle_dec m (erri f s i)); lra.
Qed.

Lemma fold_errStep_lower (l : list Variables) (m : R) :
  m <= fold_left (errStep f s) l m.
Proof.
  revert m. induction l as [|i l IH]; intros m; simpl; [lra|].
  eapply Rle_trans; [|apply IH]. rewrite errStep_max. apply Rmax_l.
Qed.

Lemma fold_errStep_upper (l : list Variables) (m : R) (i : Variables) :
  In i l -> erri f s i <= fold_left (errStep f s) l m.
Proof.
  revert m. induction l as [|j l IH]; intros m H; simpl in *;
    [contradiction|destruct H as [E|H]].
  - subst j. eapply Rle_trans; [|apply fold_errStep_lower].
    rewrite errStep_max. apply Rmax_r.
  - now apply IH.
Qed.

Lemma fold_errStep_attained (l : list Variables) (m : R) :
  fold_left (errStep f s) l m = m
  \/ exists i, In i l /\ fold_left (errStep f s) l m = erri f s i.
Proof.
  revert m. induction l as [|j l IH]; intros m; simpl; [now left|].
  destruct (IH (errStep f s m j)) as [E|[i [Hi E]]].
  - rewrite E. unfold errStep. destruct (Rgt_dec (erri f s j) m).
    + right. exists j. split; [now left|reflexivity].
    + now left.
  - right. exists i. split; [now right|exact E].
Qed.

Lemma errMax_fold : errMax f s = fold_left (errStep f s) variables 0.0.
Proof. reflexivity. Qed.

Lemma errMax_upper (i : Variables) : erri f s i <= errMax f s.
Proof. rewrite errMax_fold. apply fold_errStep_upper, variables_all. Qed.

Lemma errMax_attained : exists i, errMax f s = erri f s i.
Proof.
  rewrite errMax_fold.
  destruct (fold_errStep_attained variables 0.0) as [E|[i [_ E]]].
  - exists Ca. pose proof (errMax_upper Ca) as U.
    rewrite errMax_fold in U. rewrite E in U |- *.
    pose proof (erri_nonneg Ca). lra.
  - now exists i.
Qed.

Lemma errMax_nonneg : 0 <= errMax f s.
Proof.
  eapply Rle_trans; [apply (erri_nonneg Ca)|apply errMax_upper].
Qed.

Lemma fct_pos : 0 < fct f s.
Proof.
  unfold fct. destruct (Rgt_dec (errMax f s) 0.0).
  - apply Rdiv_lt_0_compat; [unfold kdSafety; lra|apply exp_pos].
  - unfold kdGrowMax. lra.
Qed.

End ErrMax.

(** ** The two exits of the stepper *)

Lemma shrink_factor (h a b : R) :
  (if Rlt_dec a b then h * b else h * a) = h * Rmax a b.
Proof.
  unfold Rmax. destruct (Rlt_dec a b), (Rle_dec a b);
    try reflexivity; try (exfalso; lra).
  replace b with a by lra. reflexivity.
Qed.

Lemma grow_factor (h a b : R) :
  (if Rgt_dec a b then h * b else h * a) = h * Rmin a b.
Proof.
  unfold Rmin. destruct (Rgt_dec a b), (Rle_dec a b); try reflexivity; lra.
Qed.

Section Exits.

Variable f : R -> vec -> vec -> vec.
Variable s : step.

Lemma stepper_reject :
  errMax f s > 1 ->
  stepper f s
  = if Rlt_dec (st_h (rejected f s)) kdMinH
    then Thrown underflow (rejected f s) else Returned false (rejected f s).
Proof.
  intros E. unfold stepper, rejected. cbv zeta.
  destruct (Rgt_dec (errMax f s) 1.0) as [_|N]; [|exfalso; lra].
  now rewrite shrink_factor.
Qed.

Lemma stepper_accept :
  errMax f s <= 1 -> stepper f s = Returned true (advanced f s).
Proof.
  intros E. unfold stepper, advanced. cbv zeta.
  destruct (Rgt_dec (errMax f s) 1.0) as [G|_]; [exfalso; lra|].
  now rewrite grow_factor.
Qed.

Lemma fct_below_safety : errMax f s > 1 -> fct f s < kdSafety.
Proof.
  intros E. unfold fct.
  destruct (Rgt_dec (errMax f s) 0.0) as [_|N]; [|exfalso; lra].
  assert (P : 1 < Rpower (errMax f s) (1.0 / 3.0)).
  { unfold Rpower. rewrite <- exp_0. apply exp_increasing.
    apply Rmult_lt_0_compat; [lra|].
    rewrite <- ln_1. apply ln_increasing; lra. }
  unfold kdSafety. set (p := Rpower (errMax f s) (1.0 / 3.0)) in *.
  apply Rmult_lt_reg_r with p; [lra|].
  unfold Rdiv. rewrite Rmult_assoc, Rinv_l by lra. lra.
Qed.

End Exits.

(** The outcome of a call is fixed by what the derivative routine returns
    at the three stage points. *)
Lemma stepper_three_evaluations (f g : R -> vec -> vec -> vec) (s : step) :
  g (st_t s + 0.5 * st_h s) (xtmp2 s) zeros = dxdt2 f s ->
  g (st_t s + 0.75 * st_h s) (xtmp3 f s) zeros = dxdt3 f s ->
  g (st_t s + st_h s) (xtmp4 f s) zeros = dxdt4 f s ->
  stepper g s = stepper f s.
Proof.
  intros E2 E3 E4.
  assert (D2 : dxdt2 g s = dxdt2 f s) by exact E2.
  assert (X3 : xtmp3 g s = xtmp3 f s).
  { unfold xtmp3. now rewrite D2. }
  assert (D3 : dxdt3 g s = dxdt3 f s).
  { unfold dxdt3. cbv zeta. rewrite X3. exact E3. }
  assert (X4 : xtmp4 g s = xtmp4 f s).
  { unfold xtmp4. now rewrite D2, D3. }
  assert (D4 : dxdt4 g s = dxdt4 f s).
  { unfold dxdt4. cbv zeta. rewrite X4. exact E4. }
  assert (XN : xnew g s = xnew f s).
  { unfold xnew. now rewrite D2, D3, D4. }
  assert (EI : erri g s = erri f s).
  { unfold erri. now rewrite D2, D3, D4. }
  assert (ES : errStep g s = errStep f s).
  { unfold errStep. now rewrite EI. }
  assert (EM : errMax g s = errMax f s).
  { rewrite !errMax_fold. now rewrite ES. }
  assert (FC : fct g s = fct f s).
  { unfold fct. now rewrite EM. }
  unfold stepper. now rewrite EM, FC, XN, D4.
Qed.

(** C3.  One call on [(t, x, dxdt1, h)] evaluates the derivative at
    [(t + h/2, x + (h/2) dxdt1)], at [(t + 3h/4, x + (3h/4) stage2)] and at
    [(t + h, x + (h/9)(2 stage1 + 3 stage2 + 4 stage3))], and its outcome
    depends on the derivative routine through these three values only; it
    proposes [x + (h/24)(7 stage1 + 6 stage2 + 8 stage3 + 3 stage4)]; its
    [errMax] is the largest over the 46 components of
    [|h (5/72 stage1 - 1/12 stage2 - 1/9 stage3 + 1/8 stage4)| / tolerance];
    and [fct] is [safety / errMax^(1/3)] when [errMax > 0] and [growMax]
    otherwise. *)
Theorem stepper_stages (s : step) :
  let t := st_t s in
  let x := st_x s in
  let stage1 := st_dxdt1 s in
  let h := st_h s in
  let stage2 := rhs (t + h / 2) (fun i => x i + h / 2 * stage1 i) zeros in
  let stage3 :=
    rhs (t + 3 * h / 4) (fun i => x i + 3 * h / 4 * stage2 i) zeros in
  let stage4 :=
    rhs (t + h)
        (fun i => x i + h / 9 * (2 * stage1 i + 3 * stage2 i + 4 * stage3 i))
        zeros in
  let e := fun i =>
    Rabs (h * (5 / 72 * stage1 i - 1 / 12 * stage2 i - 1 / 9 * stage3 i
               + 1 / 8 * stage4 i)) / tolerance in
  (forall i, dxdt2 rhs s i = stage2 i)
  /\ (forall i, dxdt3 rhs s i = stage3 i)
  /\ (forall i, dxdt4 rhs s i = stage4 i)
  /\ (forall g : R -> vec -> vec -> vec,
        g (t + 0.5 * h) (xtmp2 s) zeros = dxdt2 rhs s ->
        g (t + 0.75 * h) (xtmp3 rhs s) zeros = dxdt3 rhs s ->
        g (t + h) (xtmp4 rhs s) zeros = dxdt4 rhs s ->
        stepper g s = bogackiShampineStepper s)
  /\ (forall i,
        xnew rhs s i
        = x i + h / 24 * (7 * stage1 i + 6 * stage2 i + 8 * stage3 i
                          + 3 * stage4 i))
  /\ (forall i, e i <= errMax rhs s)
  /\ (exists i, errMax rhs s = e i)
  /\ fct rhs s = (if Rgt_dec (errMax rhs s) 0
                  then kdSafety / Rpower (errMax rhs s) (1 / 3)
                  else kdGrowMax).
Proof.
  intros t x stage1 h stage2 stage3 stage4 e.
  assert (S2 : forall i, dxdt2 rhs s i = stage2 i).
  { intros i. apply rhs_ext. intros j. unfold xtmp2. cbv zeta.
    fold x h stage1. lra. }
  assert (S3 : forall i, dxdt3 rhs s i = stage3 i).
  { intros i. apply rhs_ext. intros j. unfold xtmp3. cbv zeta.
    fold x h. rewrite S2. lra. }
  assert (S4 : forall i, dxdt4 rhs s i = stage4 i).
  { intros i. apply rhs_ext. intros j. unfold xtmp4. cbv zeta.
    fold x h stage1. rewrite S2, S3. lra. }
  assert (EI : forall i, erri rhs s i = e i).
  { intros i. unfold erri, e. cbv zeta. fold h stage1.
    rewrite S2, S3, S4. f_equal. f_equal. lra. }
  split; [exact S2|]. split; [exact S3|]. split; [exact S4|].
  split; [|split; [|split; [|split]]].
  - intros g. apply stepper_three_evaluations.
  - intros i. unfold xnew. cbv zeta. fold x h stage1.
    rewrite S2, S3, S4. lra.
  - intros i. rewrite <- EI. apply errMax_upper.
  - destruct (errMax_attained rhs s) as [i E]. exists i. now rewrite <- EI.
  - unfold fct. replace (1.0 / 3.0) with (1 / 3) by lra.
    destruct (Rgt_dec (errMax rhs s) 0.0), (Rgt_dec (errMax rhs s) 0);
      try reflexivity; exfalso; lra.
Qed.

(** C5.  When [errMax > 1] the call rejects the step: it ends in
    [return false] or in the underflow exception, never in [return true];
    either way [t], [x] and [dxdt1] are as they were and [h] has been
    multiplied by [max(fct, kdShrinkMax)], so a non-negative step size
    shrinks to no less than [kdShrinkMax] times its value. *)
Theorem rejection_changes_only_h (s : step) :
  errMax rhs s > 1 ->
  let o := bogackiShampineStepper s in
  (o = Returned false (final o) \/ o = Thrown underflow (final o))
  /\ st_t (final o) = st_t s
  /\ st_x (final o) = st_x s
  /\ st_dxdt1 (final o) = st_dxdt1 s
  /\ st_h (final o) = st_h s * Rmax (fct rhs s) kdShrinkMax
  /\ (0 <= st_h s -> kdShrinkMax * st_h s <= st_h (final o)).
Proof.
  intros E o.
  assert (O : o = Returned false (rejected rhs s)
              \/ o = Thrown underflow (rejected rhs s)).
  { unfold o, bogackiShampineStepper. rewrite (stepper_reject rhs s E).
    destruct (Rlt_dec (st_h (rejected rhs s)) kdMinH); [now right|now left]. }
  assert (F : final o = rejected rhs s) by (destruct O as [-> | ->]; reflexivity).
  rewrite F. split; [exact O|]. repeat (split; [reflexivity|]).
  intros H. simpl.
  pose proof (Rmax_r (fct rhs s) kdShrinkMax) as M.
  rewrite (Rmult_comm kdShrinkMax). now apply Rmult_le_compat_l.
Qed.

(** C6.  The call throws exactly when [errMax > 1] and the shrunk step
    size [h * max(fct, kdShrinkMax)] is below [kdMinH], and then what it
    throws is the step-size-underflow error; otherwise it returns: [true]
    when [errMax <= 1], [false] when the step is rejected and the shrunk
    step size is still at least [kdMinH]. *)
Theorem underflow_iff (s : step) :
  let h' := st_h s * Rmax (fct rhs s) kdShrinkMax in
  ((exists what s', bogackiShampineStepper s = Thrown what s')
   <-> errMax rhs s > 1 /\ h' < kdMinH)
  /\ (forall what s',
        bogackiShampineStepper s = Thrown what s' -> what = underflow)
  /\ (errMax rhs s <= 1 ->
      bogackiShampineStepper s = Returned true (advanced rhs s))
  /\ (errMax rhs s > 1 -> kdMinH <= h' ->
      bogackiShampineStepper s = Returned false (rejected rhs s)).
Proof.
  intros h'. unfold bogackiShampineStepper.
  destruct (Rle_or_lt (errMax rhs s) 1) as [A|R].
  - rewrite (stepper_accept rhs s A).
    split; [split|split; [|split]].
    + intros (what & s' & E). discriminate.
    + intros [G _]. exfalso. lra.
    + intros what s' E. discriminate.
    + reflexivity.
    + intros G. exfalso. lra.
  - rewrite (stepper_reject rhs s R).
    change (st_h (rejected rhs s)) with h'.
    destruct (Rlt_dec h' kdMinH) as [U|N].
    + split; [split|split; [|split]].
      * intros _. split; [exact R|exact U].
      * intros _. now exists underflow, (rejected rhs s).
      * intros what s' E. now injection E as <- _.
      * intros L. exfalso. lra.
      * intros _ L. exfalso. lra.
    + split; [split|split; [|split]].
      * intros (what & s' & E). discriminate.
      * intros [_ U]. contradiction.
      * intros what s' E. discriminate.
      * intros L. exfalso. lra.
      * reflexivity.
Qed.

(** C7.  When [errMax <= 1] the call returns [true] after committing the
    proposed state to [x], adding [h] to [t], replacing [dxdt1] by the
    stage-4 derivative and multiplying [h] by [min(fct, kdGrowMax)]; a
    non-negative step size therefore grows to at most [kdGrowMax] times its
    value. *)
Theorem acceptance_commits (s : step) :
  errMax rhs s <= 1 ->
  exists s',
    bogackiShampineStepper s = Returned true s'
    /\ st_x s' = xnew rhs s
    /\ st_t s' = st_t s + st_h s
    /\ st_dxdt1 s' = dxdt4 rhs s
    /\ st_h s' = st_h s * Rmin (fct rhs s) kdGrowMax
    /\ (0 <= st_h s -> st_h s' <= st_h s * kdGrowMax).
Proof.
  intros A. exists (advanced rhs s).
  split; [apply stepper_accept, A|].
  repeat (split; [reflexivity|]).
  intros H. simpl. apply Rmult_le_compat_l; [exact H|apply Rmin_r].
Qed.

(** ** The stepper on states with a single active species *)

Lemma bp_state_only (y : R) : bp_only (bp_state y).
Proof. intros i N. unfold bp_state. rewrite upd_other; [reflexivity|congruence]. Qed.

Lemma bp_state_Bp (y : R) : bp_state y Bp = y.
Proof. apply upd_same. Qed.

Ltac zero_out x H :=
  repeat match goal with
         | |- context [x ?v] =>
             lazymatch v with
             | Bp => fail
             | _ => rewrite (H v) by discriminate
             end
         end.

Lemma derivative_bp_only (x : vec) (i : Variables) :
  bp_only x ->
  derivative x i = if same_slot Bp i then -0.04 * x Bp else 0.
Proof.
  intros H. destruct i; simpl; unfold_fluxes; unfold pow;
    zero_out x H; lra.
Qed.

Lemma rhs_bp_only (t : R) (x dxdt : vec) :
  bp_only x ->
  bp_only (rhs t x dxdt) /\ rhs t x dxdt Bp = -0.04 * x Bp.
Proof.
  intros H. split.
  - intros i N. rewrite rhs_derivative, derivative_bp_only by exact H.
    destruct (same_slot Bp i) eqn:E; [|reflexivity].
    apply same_slot_true in E. congruence.
  - now rewrite rhs_derivative, derivative_bp_only.
Qed.

Section BpStep.

Variable s : step.
Hypothesis Hx : bp_only (st_x s).
Hypothesis Hk : bp_only (st_dxdt1 s).

Let y := st_x s Bp.
Let k := st_dxdt1 s Bp.
Let h := st_h s.

Lemma bp_xtmp2 : bp_only (xtmp2 s) /\ xtmp2 s Bp = y + 0.5 * h * k.
Proof.
  split; [|reflexivity].
  intros i N. unfold xtmp2. cbv zeta. rewrite (Hx i N), (Hk i N). lra.
Qed.

Lemma bp_dxdt2 : bp_only (dxdt2 rhs s) /\ dxdt2 rhs s Bp = bp_k2 y k h.
Proof.
  destruct bp_xtmp2 as [O V].
  destruct (rhs_bp_only (st_t s + 0.5 * st_h s) (xtmp2 s) zeros O) as [O' V'].
  split; [exact O'|]. unfold dxdt2. cbv zeta. rewrite V', V. reflexivity.
Qed.

Lemma bp_xtmp3 :
  bp_only (xtmp3 rhs s) /\ xtmp3 rhs s Bp = y + 0.75 * h * bp_k2 y k h.
Proof.
  destruct bp_dxdt2 as [O V]. split.
  - intros i N. unfold xtmp3. cbv zeta. rewrite (Hx i N), (O i N). lra.
  - unfold xtmp3. cbv zeta. now rewrite V.
Qed.

Lemma bp_dxdt3 : bp_only (dxdt3 rhs s) /\ dxdt3 rhs s Bp = bp_k3 y k h.
Proof.
  destruct bp_xtmp3 as [O V].
  destruct (rhs_bp_only (st_t s + 0.75 * st_h s) (xtmp3 rhs s) zeros O)
    as [O' V'].
  split; [exact O'|]. unfold dxdt3. cbv zeta. rewrite V', V. reflexivity.
Qed.

Lemma bp_xtmp4 :
  bp_only (xtmp4 rhs s)
  /\ xtmp4 rhs s Bp
     = y + (1.0 / 9.0) * h * (2.0 * k + 3.0 * bp_k2 y k h + 4.0 * bp_k3 y k h).
Proof.
  destruct bp_dxdt2 as [O2 V2]. destruct bp_dxdt3 as [O3 V3]. split.
  - intros i N. unfold xtmp4. cbv zeta.
    rewrite (Hx i N), (Hk i N), (O2 i N), (O3 i N). lra.
  - unfold xtmp4. cbv zeta. now rewrite V2, V3.
Qed.

Lemma bp_dxdt4 : bp_only (dxdt4 rhs s) /\ dxdt4 rhs s Bp = bp_k4 y k h.
Proof.
  destruct bp_xtmp4 as [O V].
  destruct (rhs_bp_only (st_t s + st_h s) (xtmp4 rhs s) zeros O) as [O' V'].
  split; [exact O'|]. unfold dxdt4. cbv zeta. rewrite V', V. reflexivity.
Qed.

Lemma bp_xnew : bp_only (xnew rhs s) /\ xnew rhs s Bp = bp_new y k h.
Proof.
  destruct bp_dxdt2 as [O2 V2]. destruct bp_dxdt3 as [O3 V3].
  destruct bp_dxdt4 as [O4 V4]. split.
  - intros i N. unfold xnew. cbv zeta.
    rewrite (Hx i N), (Hk i N), (O2 i N), (O3 i N), (O4 i N). lra.
  - unfold xnew. cbv zeta. now rewrite V2, V3, V4.
Qed.

Lemma bp_erri (i : Variables) :
  erri rhs s i = if same_slot Bp i then bp_err y k h else 0.
Proof.
  destruct bp_dxdt2 as [O2 V2]. destruct bp_dxdt3 as [O3 V3].
  destruct bp_dxdt4 as [O4 V4].
  destruct (same_slot Bp i) eqn:E.
  - apply same_slot_true in E. subst i. unfold erri. cbv zeta.
    now rewrite V2, V3, V4.
  - assert (N : i <> Bp).
    { intros ->. unfold same_slot in E. now rewrite Nat.eqb_refl in E. }
    unfold erri. cbv zeta.
    rewrite (Hk i N), (O2 i N), (O3 i N), (O4 i N).
    replace (st_h s * (5.0 / 72.0 * 0 - 1.0 / 12.0 * 0 - 1.0 / 9.0 * 0
                       + 1.0 / 8.0 * 0)) with 0 by lra.
    rewrite Rabs_R0. unfold Rdiv. apply Rmult_0_l.
Qed.

Lemma bp_errMax : errMax rhs s = bp_err y k h.
Proof.
  pose proof (errMax_upper rhs s Bp) as U. rewrite bp_erri in U.
  replace (same_slot Bp Bp) with true in U by reflexivity.
  destruct (errMax_attained rhs s) as [i E]. rewrite bp_erri in E.
  destruct (same_slot Bp i); [exact E|].
  pose proof (erri_nonneg rhs s Bp) as P. rewrite bp_erri in P.
  replace (same_slot Bp Bp) with true in P by reflexivity. lra.
Qed.

End BpStep.

Lemma bp_step_only (y h : R) :
  bp_only (st_x (bp_step y h)) /\ bp_only (st_dxdt1 (bp_step y h))
  /\ st_x (bp_step y h) Bp = y /\ st_dxdt1 (bp_step y h) Bp = -0.04 * y.
Proof.
  simpl. destruct (rhs_bp_only 0.0 (bp_state y) zeros (bp_state_only y))
    as [O V].
  rewrite bp_state_Bp in V.
  split; [apply bp_state_only|]. split; [exact O|].
  split; [apply bp_state_Bp|exact V].
Qed.

Lemma bp_step_errMax (y h : R) :
  errMax rhs (bp_step y h) = bp_err y (-0.04 * y) h.
Proof.
  destruct (bp_step_only y h) as (Ox & Ok & Vx & Vk).
  rewrite (bp_errMax _ Ox Ok). cbv zeta. now rewrite Vx, Vk.
Qed.

(** Closed form of the scalar error estimate: with [z = -0.04 h] it is
    [|y z^3 (1 + z) / 48| / tolerance]. *)
Lemma bp_err_closed (y h : R) :
  bp_err y (-0.04 * y) h
  = Rabs (y * (-0.04 * h) ^ 3 * (1 + -0.04 * h) / 48) / tolerance.
Proof.
  unfold bp_err, bp_k4, bp_k3, bp_k2. f_equal. f_equal. lra.
Qed.

Lemma bp_err_small : bp_err 1 (-0.04 * 1) dt0 <= 1.
Proof.
  rewrite bp_err_closed. unfold dt0, tolerance.
  apply Rmult_le_reg_r with 1.0e-6; [lra|].
  unfold Rdiv at 1. rewrite Rmult_assoc, Rinv_l by lra.
  rewrite Rabs_left by lra. lra.
Qed.

Lemma scaled_le (a : R) : Rabs a <= tolerance -> Rabs a / tolerance <= 1.
Proof.
  intros H. pose proof tolerance_pos as T.
  apply Rmult_le_reg_r with tolerance; [exact T|].
  unfold Rdiv. rewrite Rmult_assoc, Rinv_l by lra. lra.
Qed.

Lemma scaled_gt (a : R) : Rabs a > tolerance -> Rabs a / tolerance > 1.
Proof.
  intros H. pose proof tolerance_pos as T.
  apply Rmult_lt_reg_r with tolerance; [exact T|].
  unfold Rdiv. rewrite Rmult_assoc, Rinv_l by lra. lra.
Qed.

Lemma bp_err_large : bp_err 1 (-0.04 * 1) 100 > 1.
Proof.
  rewrite bp_err_closed. apply scaled_gt. unfold tolerance.
  rewrite Rabs_right by lra. lra.
Qed.

Lemma bp_err_stiff : bp_err 1e18 (-0.04 * 1e18) kdMinH > 1.
Proof.
  rewrite bp_err_closed. apply scaled_gt. unfold tolerance, kdMinH.
  rewrite Rabs_left by lra. lra.
Qed.

Lemma stepper_stages_witness :
  stepper rhs (bp_step 1 dt0) = bogackiShampineStepper (bp_step 1 dt0).
Proof.
  apply (stepper_stages (bp_step 1 dt0)); reflexivity.
Defined.

Lemma rejection_changes_only_h_witness :
  errMax rhs (bp_step 1 100) > 1
  /\ st_x (final (bogackiShampineStepper (bp_step 1 100))) = bp_state 1
  /\ st_h (final (bogackiShampineStepper (bp_step 1 100)))
     = 100 * Rmax (fct rhs (bp_step 1 100)) kdShrinkMax.
Proof.
  assert (E : errMax rhs (bp_step 1 100) > 1).
  { rewrite bp_step_errMax. exact bp_err_large. }
  split; [exact E|].
  split; apply (rejection_changes_only_h (bp_step 1 100) E).
Defined.

Lemma underflow_iff_witness :
  exists what s',
    bogackiShampineStepper (bp_step 1e18 kdMinH) = Thrown what s'.
Proof.
  apply (underflow_iff (bp_step 1e18 kdMinH)).
  assert (E : errMax rhs (bp_step 1e18 kdMinH) > 1).
  { rewrite bp_step_errMax. exact bp_err_stiff. }
  split; [exact E|].
  pose proof (fct_below_safety rhs _ E) as F.
  assert (M : Rmax (fct rhs (bp_step 1e18 kdMinH)) kdShrinkMax < 1).
  { apply Rmax_lub_lt; [unfold kdSafety in F|unfold kdShrinkMax]; lra. }
  simpl. unfold kdMinH in *. nra.
Defined.

Lemma acceptance_commits_witness :
  errMax rhs (bp_step 1 dt0) <= 1
  /\ exists s',
       bogackiShampineStepper (bp_step 1 dt0) = Returned true s'
       /\ st_x s' = xnew rhs (bp_step 1 dt0)
       /\ st_t s' = 0.0 + dt0
       /\ st_dxdt1 s' = dxdt4 rhs (bp_step 1 dt0)
       /\ st_h s' = dt0 * Rmin (fct rhs (bp_step 1 dt0)) kdGrowMax
       /\ (0 <= dt0 -> st_h s' <= dt0 * kdGrowMax).
Proof.
  assert (E : errMax rhs (bp_step 1 dt0) <= 1).
  { rewrite bp_step_errMax. exact bp_err_small. }
  split; [exact E|].
  exact (acceptance_commits (bp_step 1 dt0) E).
Defined.

(** ** Divisions by zero *)

Lemma checked_div_ok (a b : R) : b <> 0 -> checked_div a b = Some (a / b).
Proof. intros N. unfold checked_div. now destruct (Req_dec_T b 0). Qed.

Lemma checked_div_zero (a b : R) : b = 0 -> checked_div a b = None.
Proof. intros E. unfold checked_div. now destruct (Req_dec_T b 0). Qed.

Lemma checked_div_some (a b q : R) :
  checked_div a b = Some q -> b <> 0 /\ q = a / b.
Proof.
  unfold checked_div. destruct (Req_dec_T b 0); [discriminate|].
  intros E. injection E as <-. now split.
Qed.

Ltac unfold_checked :=
  unfold rhs_checked, rhsActin_checked, rhsCofilin_checked,
    rhsArp23_checked, rhsCaMKII_checked,
    CheckedCaMKII.v5, CheckedCaMKII.v6, CheckedCaMKII.v7, CheckedCaMKII.v8,
    CheckedCaMKII.v9, CheckedCaMKII.v10, CheckedCaMKII.v11,
    CheckedCaMKII.v12,
    CheckedArp23.v1, CheckedArp23.v2, CheckedArp23.v3, CheckedArp23.v4,
    CheckedArp23.v5, CheckedArp23.v6,
    CheckedCofilin.v1, CheckedCofilin.v2, CheckedCofilin.v3,
    CheckedCofilin.v4, CheckedCofilin.v5, CheckedCofilin.v6,
    CheckedActin.fsev, CheckedActin.fnuc, CheckedActin.vmb,
    CheckedRho.v1, CheckedRho.v2, CheckedRho.v3, CheckedRho.v4,
    CheckedRho.v6, CheckedRho.v7, CheckedRho.v8, CheckedRho.v9, bind in *.

(** Whenever no division fails, the checked evaluator returns what [rhs]
    returns. *)
Lemma rhs_checked_agrees (t : R) (x dxdt d : vec) :
  rhs_checked t x dxdt = Some d -> d = rhs t x dxdt.
Proof.
  intros H. unfold_checked.
  repeat match type of H with
         | context [checked_div ?a ?b] =>
             let E := fresh "E" in
             destruct (checked_div a b) eqn:E;
             [apply checked_div_some in E; destruct E as [_ ->];
              cbv beta iota in H
             |discriminate H]
         end.
  injection H as <-. reflexivity.
Qed.

Ltac solve_divisor x H :=
  lazymatch goal with
  | |- 0.0001 <> 0 => lra
  | |- _ + enum_value RhoGEF <> 0 => rewrite enum_value_RhoGEF; lra
  | |- _ + pow (x ?v) 4 <> 0 =>
      unfold pow; pose proof (pow_le (x v) 4 (H v)); lra
  | |- x Bp + _ * exp ?q <> 0 =>
      pose proof (H Bp); pose proof (exp_pos q); lra
  | |- _ + x ?v <> 0 => pose proof (H v); lra
  | |- x ?v <> 0 => pose proof (H v); lra
  end.

Ltac run_divisions x H :=
  repeat (rewrite checked_div_ok by solve_divisor x H; cbv beta iota).

Lemma rhsCofilin_checked_nonneg (t : R) (x dxdt : vec) :
  nonneg x -> rhsCofilin_checked t x dxdt = Some (rhsCofilin t x dxdt).
Proof.
  intros H. unfold_checked. run_divisions x H. reflexivity.
Qed.

(** The membrane-velocity term divides by [x[Bp]]. *)
Lemma rhs_checked_Bp_zero (t : R) (x dxdt : vec) :
  nonneg x -> x Bp = 0 -> rhs_checked t x dxdt = None.
Proof.
  intros H Z. unfold rhs_checked, rhsActin_checked.
  rewrite rhsCofilin_checked_nonneg by exact H.
  unfold_checked. run_divisions x H.
  now rewrite (checked_div_zero 50.0 (x Bp) Z).
Qed.

Lemma zeros_nonneg : nonneg zeros.
Proof. intros i. unfold zeros. lra. Qed.

(** Counterexample to C10 as stated: on the all-zero vector (the initial
    vector of [main] before the initial conditions are filled in) the
    division [50.0 / x[Bp]] has a zero denominator; and with [x[Bp] = 1]
    the saturating denominator [10.0 + x[CaMKII]] vanishes at
    [x[CaMKII] = -10]. *)
Lemma rhs_checked_undefined :
  rhs_checked 0 zeros zeros = None
  /\ rhs_checked 0 (upd (upd zeros Bp 1) CaMKII (-10)) zeros = None.
Proof.
  split.
  - apply rhs_checked_Bp_zero; [apply zeros_nonneg|reflexivity].
  - unfold_checked.
    rewrite checked_div_ok.
    + cbv beta iota. rewrite checked_div_zero; [reflexivity|].
      rewrite upd_same. lra.
    + rewrite !upd_other by discriminate. unfold zeros, pow. lra.
Qed.

(** C10, amended.  On every state with non-negative concentrations and
    [x[Bp] > 0] no division of the evaluator has a zero denominator: the
    checked evaluation succeeds and yields the derivative vector of [rhs]. *)
Theorem rhs_checked_defined (t : R) (x dxdt : vec) :
  nonneg x -> 0 < x Bp -> rhs_checked t x dxdt = Some (rhs t x dxdt).
Proof.
  intros H P.
  unfold rhs_checked, rhsActin_checked.
  rewrite rhsCofilin_checked_nonneg by exact H.
  unfold_checked.
  repeat (rewrite checked_div_ok;
          [cbv beta iota
          |first [solve_divisor x H
                 | pose proof (exp_pos (50.0 / x Bp)); lra
                 | lra]]).
  reflexivity.
Qed.

Lemma x0_nonneg : nonneg x0 /\ 0 < x0 Bp.
Proof.
  split.
  - intros i. destruct i;
      cbv [x0 store fold_left exec upd same_slot enum Nat.eqb zeros]; lra.
  - cbv [x0 store fold_left exec upd same_slot enum Nat.eqb zeros]. lra.
Qed.

Lemma rhs_checked_defined_witness :
  rhs_checked 0.0 x0 zeros = Some (rhs 0.0 x0 zeros).
Proof.
  apply (rhs_checked_defined 0.0 x0 zeros); apply x0_nonneg.
Defined.

(** ** The growth cap *)



(** ** One pass through the loop body *)

Lemma iteration_accepted (d : driver) :
  errMax rhs (call d) <= 1 ->
  exists d',
    iteration d = inl d'
    /\ dr_t d' = dr_t d + dr_dt d
    /\ dr_x d' = xnew rhs (call d)
    /\ dr_dxdt1 d' = dxdt4 rhs (call d)
    /\ dr_dt d' = dr_dt d * Rmin (fct rhs (call d)) kdGrowMax
    /\ nOK d' = S (nOK d)
    /\ nStep d' = S (nStep d)
    /\ (dr_t d' > dr_tsav d ->
        ofs d' = ofs d ++ [(dr_t d', dr_x d')]
        /\ dr_tsav d' = dr_tsav d + dtsav).
Proof.
  intros A. unfold iteration. fold (call d).
  unfold bogackiShampineStepper. rewrite (stepper_accept rhs (call d) A).
  cbn [advanced st_t st_x st_h st_dxdt1 call].
  destruct (Rgt_dec (dr_t d + dr_dt d) (dr_tsav d)) as [G|N];
    eexists; (split; [reflexivity|]);
    cbn [dr_t dr_x dr_dxdt1 dr_dt nOK nStep ofs dr_tsav];
    do 6 (split; [reflexivity|]); intros G';
    [split; reflexivity|contradiction].
Qed.

Lemma iteration_rejected (d : driver) :
  errMax rhs (call d) > 1 ->
  kdMinH <= dr_dt d * Rmax (fct rhs (call d)) kdShrinkMax ->
  exists d',
    iteration d = inl d'
    /\ dr_t d' = dr_t d
    /\ dr_x d' = dr_x d
    /\ dr_dxdt1 d' = dr_dxdt1 d
    /\ dr_dt d' = dr_dt d * Rmax (fct rhs (call d)) kdShrinkMax
    /\ nOK d' = nOK d
    /\ nStep d' = S (nStep d)
    /\ (dr_t d > dr_tsav d ->
        ofs d' = ofs d ++ [(dr_t d, dr_x d)]
        /\ dr_tsav d' = dr_tsav d + dtsav).
Proof.
  intros E L. unfold iteration. fold (call d).
  unfold bogackiShampineStepper. rewrite (stepper_reject rhs (call d) E).
  destruct (Rlt_dec (st_h (rejected rhs (call d))) kdMinH) as [U|_].
  { exfalso. cbn [rejected call st_h] in U. lra. }
  cbn [rejected st_t st_x st_h st_dxdt1 call].
  destruct (Rgt_dec (dr_t d) (dr_tsav d)) as [G|N];
    eexists; (split; [reflexivity|]);
    cbn [dr_t dr_x dr_dxdt1 dr_dt nOK nStep ofs dr_tsav];
    do 6 (split; [reflexivity|]); intros G';
    [split; reflexivity|contradiction].
Qed.

Lemma loop_step (n : nat) (d d' : driver) :
  dr_t d < tEnd -> iteration d = inl d' -> loop (S n) d = loop n d'.
Proof.
  intros L E. simpl. rewrite E.
  destruct (Rlt_dec (dr_t d) tEnd); [reflexivity|contradiction].
Qed.

Lemma loop_running (d : driver) : dr_t d < tEnd -> loop 0 d = Running d.
Proof.
  intros L. simpl.
  destruct (Rlt_dec (dr_t d) tEnd); [reflexivity|contradiction].
Qed.

Lemma call_start (y h : R) : call (start (bp_state y) h) = bp_step y h.
Proof. reflexivity. Qed.

(** ** Reuse of the stage-4 derivative *)

(** The committed state and the point where stage 4 was evaluated differ,
    component by component, by the quantity whose absolute value is the
    error estimate. *)
Lemma commit_minus_stage4_point
  (f : R -> vec -> vec -> vec) (s : step) (i : Variables) :
  xnew f s i - xtmp4 f s i
  = st_h s * ((5.0 / 72.0) * st_dxdt1 s i - (1.0 / 12.0) * dxdt2 f s i
              - (1.0 / 9.0) * dxdt3 f s i + (1.0 / 8.0) * dxdt4 f s i).
Proof. unfold xnew, xtmp4. cbv zeta. lra. Qed.

(** C2 fails on the code.  Started from the state with [Bp = 1] and every
    other species zero, with the initial step size [dt0], the first pass of
    the loop accepts its step; afterwards [dxdt1] is the derivative at the
    stage-4 point, which is not the committed state, and differs from the
    derivative at the new [(t, x)]. *)
Theorem reused_derivative_is_stale :
  exists d',
    iteration (start (bp_state 1) dt0) = inl d'
    /\ nOK d' = 1%nat
    /\ xtmp4 rhs (bp_step 1 dt0) Bp <> dr_x d' Bp
    /\ dr_dxdt1 d' Bp <> rhs (dr_t d') (dr_x d') zeros Bp.
Proof.
  pose (d := start (bp_state 1) dt0).
  assert (A : errMax rhs (call d) <= 1).
  { unfold d. rewrite call_start, bp_step_errMax. exact bp_err_small. }
  destruct (iteration_accepted d A)
    as (d' & I & _ & X & K & _ & N & _).
  exists d'. split; [exact I|]. split; [exact N|].
  unfold d in X, K. rewrite call_start in X, K. rewrite X, K.
  destruct (bp_step_only 1 dt0) as (Ox & Ok & Vx & Vk).
  destruct (bp_xtmp4 _ Ox Ok) as [_ V4].
  destruct (bp_dxdt4 _ Ox Ok) as [_ D4].
  destruct (bp_xnew _ Ox Ok) as [On Vn].
  destruct (rhs_bp_only (dr_t d') _ zeros On) as [_ R].
  cbv zeta in V4, D4, Vn. rewrite Vx, Vk in V4, D4, Vn.
  rewrite V4, D4, R, Vn.
  cbn [st_h bp_step].
  unfold bp_new, bp_k4, bp_k3, bp_k2, dt0. split; lra.
Qed.

(** ** Sampling *)




(** ** An exact trajectory, and the step size along a run *)

Lemma bp_decay_trajectory : trajectory bp_decay.
Proof.
  intros t i.
  destruct (rhs_bp_only t (bp_decay t) zeros (bp_state_only _)) as [O V].
  destruct i;
    try (rewrite O by discriminate; exact (derivable_pt_lim_const 0 t)).
  rewrite V. unfold bp_decay at 2. rewrite bp_state_Bp.
  replace (-0.04 * exp (-0.04 * t)) with (exp (-0.04 * t) * (-0.04 * 1))
    by lra.
  apply (derivable_pt_lim_comp (mult_real_fct (-0.04) id) exp).
  - apply derivable_pt_lim_scal, derivable_pt_lim_id.
  - apply derivable_pt_lim_exp.
Qed.

Lemma conserved_pairs_sum_witness :
  trajectory bp_decay
  /\ In (CaN, CaNact) conserved_pairs
  /\ bp_decay 1 CaN + bp_decay 1 CaNact
     = bp_decay 0 CaN + bp_decay 0 CaNact.
Proof.
  assert (P : In (CaN, CaNact) conserved_pairs) by (simpl; now left).
  split; [exact bp_decay_trajectory|]. split; [exact P|].
  exact (proj2 (proj2 conserved_pairs_sum) bp_decay CaN CaNact
               bp_decay_trajectory P 1).
Defined.

(** The step size stays positive through every pass of the loop. *)
Lemma iteration_step_positive (d d' : driver) :
  0 < dr_dt d -> iteration d = inl d' -> 0 < dr_dt d'.
Proof.
  intros P I.
  pose proof (fct_pos rhs (call d)) as F.
  destruct (Rle_or_lt (errMax rhs (call d)) 1) as [A|R].
  - destruct (iteration_accepted d A) as (d1 & I1 & _ & _ & _ & H & _).
    rewrite I in I1. injection I1 as <-. rewrite H.
    apply Rmult_lt_0_compat; [exact P|].
    apply Rmin_glb_lt; [exact F|unfold kdGrowMax; lra].
  - unfold iteration in I. fold (call d) in I.
    unfold bogackiShampineStepper in I.
    rewrite (stepper_reject rhs (call d) R) in I.
    destruct (Rlt_dec (st_h (rejected rhs (call d))) kdMinH);
      [discriminate|].
    cbn [rejected st_t st_x st_h st_dxdt1 call] in I.
    destruct (Rgt_dec (dr_t d) (dr_tsav d)); injection I as <-;
      cbn [dr_dt]; apply Rmult_lt_0_compat; try exact P;
      (eapply Rlt_le_trans; [|apply Rmax_l]; exact F).
Qed.

(** * Further properties of the code *)

(** ** The layers leave foreign slots alone *)

Lemma store_frame (ws : list write) (d : vec) (i : Variables) :
  ~ In i (slots ws) -> store d ws i = d i.
Proof.
  revert d. induction ws as [|w ws IH]; intros d N; simpl; [reflexivity|].
  unfold slots in N. simpl in N.
  rewrite IH by (intros H; apply N; now right).
  apply exec_other. destruct (same_slot (slot w) i) eqn:E; [|reflexivity].
  apply same_slot_true in E. exfalso. apply N. now left.
Qed.

(** Each layer function changes only the slots of its own block: outside
    them [rhsCaMKII] returns the output vector as it was passed in, and
    every outer layer returns what the layer it calls has produced. *)
Theorem layers_frame (t : R) (x dxdt : vec) (i : Variables) :
  (~ In i (slots (writesCaMKII x)) -> rhsCaMKII t x dxdt i = dxdt i)
  /\ (~ In i (slots (writesArp23 x)) ->
      rhsArp23 t x dxdt i = rhsCaMKII t x dxdt i)
  /\ (~ In i (slots (writesCofilin x)) ->
      rhsCofilin t x dxdt i = rhsArp23 t x dxdt i)
  /\ (~ In i (slots (writesActin x)) ->
      rhsActin t x dxdt i = rhsCofilin t x dxdt i)
  /\ (~ In i (slots (writesRho x)) -> rhs t x dxdt i = rhsActin t x dxdt i).
Proof.
  repeat split; intros N;
    [unfold rhsCaMKII|unfold rhsArp23|unfold rhsCofilin|unfold rhsActin
    |unfold rhs]; cbv zeta; now apply store_frame.
Qed.

Lemma layers_frame_witness :
  rhsCaMKII 0 x0 zeros MLC = zeros MLC
  /\ rhs 0 x0 zeros Ca = rhsActin 0 x0 zeros Ca.
Proof.
  split.
  - apply (layers_frame 0 x0 zeros MLC).
    intros H. simpl in H.
    repeat (destruct H as [H|H]; [discriminate H|]). exact H.
  - apply (layers_frame 0 x0 zeros Ca).
    intros H. simpl in H.
    repeat (destruct H as [H|H]; [discriminate H|]). exact H.
Defined.

(** ** Conserved totals *)

Lemma combo_cons (a : R) (i : Variables) (m : list (R * Variables)) (x : vec) :
  combo ((a, i) :: m) x = a * x i + combo m x.
Proof. reflexivity. Qed.

Lemma combo_ext (m : list (R * Variables)) (x x' : vec) :
  (forall i, x i = x' i) -> combo m x = combo m x'.
Proof.
  intros E. induction m as [|[a i] m IH]; [reflexivity|].
  now rewrite !combo_cons, IH, E.
Qed.

(** [combo m] is linear; the form needed for the stepper's updates. *)
Lemma combo_update (m : list (R * Variables)) (x k1 k2 k3 k4 : vec)
  (c a1 a2 a3 a4 : R) :
  combo m (fun i => x i + c * (a1 * k1 i + a2 * k2 i + a3 * k3 i + a4 * k4 i))
  = combo m x
    + c * (a1 * combo m k1 + a2 * combo m k2 + a3 * combo m k3
           + a4 * combo m k4).
Proof.
  induction m as [|[a i] m IH]; [unfold combo; simpl; lra|].
  rewrite !combo_cons, IH. lra.
Qed.

Lemma moiety_derivative (m : list (R * Variables)) (x : vec) :
  In m moieties -> combo m (derivative x) = 0.
Proof.
  unfold moieties. simpl.
  intros H.
  repeat (destruct H as [H|H]; [subst m; simpl; lra|]).
  contradiction.
Qed.

(** In the derivative vector of every call, each of these weighted totals
    vanishes: [Ca + 3 CaCaM], [CaM + CaCaM + NgCaM], [Ng + NgCaM],
    [CaMKII + CaMKIIFactin + CaMKIIGactin + CaMKIIp],
    [Cdc42GDP + Cdc42GTP - WASP], [WASP + WASPact - Arp23] and
    [RhoGDP + RhoGTP + ROCKact]; the pair [Arp23 + Arp23act] is not among
    the conserved ones, its derivative is minus the nucleation flux that
    the actin layer accumulates into [Arp23act]. *)
Theorem moieties_conserved (t : R) (x dxdt : vec) :
  (forall m, In m moieties -> combo m (rhs t x dxdt) = 0)
  /\ combo [(1, Arp23); (1, Arp23act)] (rhs t x dxdt) = - FluxActin.fnuc x.
Proof.
  split.
  - intros m H. rewrite <- (moiety_derivative m x H).
    apply combo_ext. intros i. apply rhs_derivative.
  - simpl. rewrite !rhs_derivative. simpl. unfold FluxActin.v3. lra.
Qed.

Lemma moieties_conserved_witness :
  combo [(1, Ca); (3, CaCaM)] (rhs 0 x0 zeros) = 0.
Proof.
  apply (moieties_conserved 0 x0 zeros). simpl. now left.
Defined.

(** ** What one stepper call does to a conserved total *)

Section Conservation.

Variable f : R -> vec -> vec -> vec.
Variable m : list (R * Variables).
Hypothesis f_conserves : forall t x d, combo m (f t x d) = 0.

Lemma xnew_conserves (s : step) :
  combo m (st_dxdt1 s) = 0 -> combo m (xnew f s) = combo m (st_x s).
Proof.
  intros K. unfold xnew. cbv zeta.
  rewrite (combo_update m (st_x s) (st_dxdt1 s) (dxdt2 f s) (dxdt3 f s)
             (dxdt4 f s) (st_h s / 24.0) 7.0 6.0 8.0 3.0).
  unfold dxdt2, dxdt3, dxdt4. cbv zeta.
  rewrite K, !f_conserves. lra.
Qed.

End Conservation.

(** ** The loop, pass by pass *)

Lemma stepper_returned (s s' : step) (accepted : bool) :
  bogackiShampineStepper s = Returned accepted s' ->
  (accepted = true /\ errMax rhs s <= 1 /\ s' = advanced rhs s)
  \/ (accepted = false /\ errMax rhs s > 1 /\ s' = rejected rhs s
      /\ kdMinH <= st_h s').
Proof.
  unfold bogackiShampineStepper.
  destruct (Rle_or_lt (errMax rhs s) 1) as [A|R].
  - rewrite (stepper_accept rhs s A). intros E. injection E as <- <-.
    left. now repeat split.
  - rewrite (stepper_reject rhs s R).
    destruct (Rlt_dec (st_h (rejected rhs s)) kdMinH) as [U|N];
      [discriminate|].
    intros E. injection E as <- <-. right.
    repeat split; [lra|lra].
Qed.

Lemma stepper_thrown (s s' : step) (what : string) :
  bogackiShampineStepper s = Thrown what s' -> what = underflow.
Proof.
  unfold bogackiShampineStepper.
  destruct (Rle_or_lt (errMax rhs s) 1) as [A|R].
  - rewrite (stepper_accept rhs s A). discriminate.
  - rewrite (stepper_reject rhs s R).
    destruct (Rlt_dec (st_h (rejected rhs s)) kdMinH); [|discriminate].
    intros E. now injection E as <- _.
Qed.

(** Everything a pass that returns does to the loop variables. *)
Lemma iteration_inl (d d' : driver) :
  iteration d = inl d' ->
  exists accepted s',
    bogackiShampineStepper (call d) = Returned accepted s'
    /\ dr_t d' = st_t s' /\ dr_x d' = st_x s'
    /\ dr_dxdt1 d' = st_dxdt1 s' /\ dr_dt d' = st_h s'
    /\ nOK d' = (if accepted then S (nOK d) else nOK d)
    /\ nStep d' = S (nStep d)
    /\ dtMin d' = (if Rlt_dec (st_h s') (dtMin d) then st_h s' else dtMin d)
    /\ dtMax d' = (if Rlt_dec (st_h s') (dtMin d) then dtMax d
                   else if Rgt_dec (st_h s') (dtMax d) then st_h s'
                        else dtMax d)
    /\ ofs d' = (if Rgt_dec (st_t s') (dr_tsav d)
                 then ofs d ++ [(st_t s', st_x s')] else ofs d)
    /\ dr_tsav d' = (if Rgt_dec (st_t s') (dr_tsav d)
                     then dr_tsav d + dtsav else dr_tsav d).
Proof.
  unfold iteration. fold (call d).
  destruct (bogackiShampineStepper (call d)) as [accepted s'|what s'];
    [|discriminate].
  intros E. exists accepted, s'. split; [reflexivity|].
  destruct (Rgt_dec (st_t s') (dr_tsav d)); injection E as <-;
    cbn [dr_t dr_x dr_dxdt1 dr_dt nOK nStep dtMin dtMax ofs dr_tsav];
    repeat split.
Qed.

Lemma iteration_inr (d : driver) (what : string) :
  iteration d = inr what -> what = underflow.
Proof.
  unfold iteration. fold (call d).
  destruct (bogackiShampineStepper (call d)) as [accepted s'|w s'] eqn:E.
  - destruct (Rgt_dec (st_t s') (dr_tsav d)); discriminate.
  - intros I. injection I as <-. exact (stepper_thrown _ _ _ E).
Qed.

Lemma loop_S (n : nat) (d : driver) :
  loop (S n) d
  = if Rlt_dec (dr_t d) tEnd
    then match iteration d with
         | inl d' => loop n d'
         | inr what => Failed what
         end
    else Completed d.
Proof. reflexivity. Qed.

Lemma loop_O (d : driver) :
  loop 0 d = if Rlt_dec (dr_t d) tEnd then Running d else Completed d.
Proof. reflexivity. Qed.

(** A property kept by every returning pass holds wherever a run stands. *)
Lemma reaches_invariant (P : driver -> Prop) :
  (forall d d', P d -> iteration d = inl d' -> P d') ->
  forall n d r, P d -> reaches n d r -> P r.
Proof.
  intros Step. induction n as [|n IH]; intros d r H [E|E].
  - rewrite loop_O in E. destruct (Rlt_dec (dr_t d) tEnd);
      [injection E as <-; exact H|discriminate].
  - rewrite loop_O in E. destruct (Rlt_dec (dr_t d) tEnd);
      [discriminate|injection E as <-; exact H].
  - rewrite loop_S in E. destruct (Rlt_dec (dr_t d) tEnd); [|discriminate].
    destruct (iteration d) as [d'|what] eqn:I; [|discriminate].
    apply (IH d' r); [now apply (Step d)|now left].
  - rewrite loop_S in E. destruct (Rlt_dec (dr_t d) tEnd).
    + destruct (iteration d) as [d'|what] eqn:I; [|discriminate].
      apply (IH d' r); [now apply (Step d)|now right].
    + injection E as <-. exact H.
Qed.

(** ** By how much a call changes the step size *)

Lemma fct_above_safety (f : R -> vec -> vec -> vec) (s : step) :
  errMax f s <= 1 -> kdSafety <= fct f s.
Proof.
  intros E. unfold fct.
  destruct (Rgt_dec (errMax f s) 0.0) as [P|_];
    [|unfold kdSafety, kdGrowMax; lra].
  assert (Q : Rpower (errMax f s) (1.0 / 3.0) <= 1).
  { assert (Q1 : Rpower 1 (1.0 / 3.0) = 1)
      by (unfold Rpower; now rewrite ln_1, Rmult_0_r, exp_0).
    pose proof (Rle_Rpower_l (errMax f s) 1 (1.0 / 3.0)) as Q.
    rewrite Q1 in Q. apply Q; lra. }
  assert (Q0 : 0 < Rpower (errMax f s) (1.0 / 3.0)) by apply exp_pos.
  set (p := Rpower (errMax f s) (1.0 / 3.0)) in *.
  unfold kdSafety.
  apply Rmult_le_reg_r with p; [exact Q0|].
  unfold Rdiv. rewrite Rmult_assoc, Rinv_l by lra. lra.
Qed.

(** Whatever way a call ends, a positive step size leaves it multiplied by
    a factor between [kdShrinkMax] and [kdGrowMax]; an accepted step never
    shrinks it below [kdSafety] times its value, and a rejected step always
    shrinks it below [kdSafety] times its value. *)
Theorem step_size_factor (s : step) :
  0 < st_h s ->
  let h' := st_h (final (bogackiShampineStepper s)) in
  kdShrinkMax * st_h s <= h' <= kdGrowMax * st_h s
  /\ (errMax rhs s <= 1 -> kdSafety * st_h s <= h')
  /\ (errMax rhs s > 1 -> h' < kdSafety * st_h s).
Proof.
  intros P h'. unfold h', bogackiShampineStepper.
  destruct (Rle_or_lt (errMax rhs s) 1) as [A|R].
  - rewrite (stepper_accept rhs s A). cbn [final advanced st_h].
    pose proof (fct_above_safety rhs s A) as L.
    pose proof (Rmin_r (fct rhs s) kdGrowMax) as U.
    assert (G : kdSafety <= Rmin (fct rhs s) kdGrowMax).
    { apply Rmin_glb; [exact L|unfold kdSafety, kdGrowMax; lra]. }
    unfold kdSafety, kdGrowMax, kdShrinkMax in *.
    split; [split; nra|]. split; [intros _; nra|intros H; lra].
  - assert (F : final (stepper rhs s) = rejected rhs s).
    { rewrite (stepper_reject rhs s R).
      now destruct (Rlt_dec (st_h (rejected rhs s)) kdMinH). }
    rewrite F. cbn [rejected st_h].
    pose proof (fct_below_safety rhs s R) as U.
    pose proof (Rmax_r (fct rhs s) kdShrinkMax) as L.
    assert (G : Rmax (fct rhs s) kdShrinkMax < kdSafety).
    { apply Rmax_lub_lt; [exact U|unfold kdSafety, kdShrinkMax; lra]. }
    unfold kdSafety, kdGrowMax, kdShrinkMax in *.
    split; [split; nra|]. split; [intros H; lra|intros _; nra].
Qed.

Lemma step_size_factor_witness :
  kdSafety * dt0 <= st_h (final (bogackiShampineStepper (bp_step 1 dt0))).
Proof.
  assert (P : 0 < st_h (bp_step 1 dt0)) by (cbn; unfold dt0; lra).
  apply (step_size_factor (bp_step 1 dt0) P).
  rewrite bp_step_errMax. exact bp_err_small.
Defined.

(** ** How a run ends *)

Lemma loop_more_fuel (n k : nat) (d : driver) (r : run) :
  loop n d = r -> (forall d', r <> Running d') -> loop (n + k) d = r.
Proof.
  revert d. induction n as [|n IH]; intros d E N.
  - rewrite loop_O in E. destruct (Rlt_dec (dr_t d) tEnd) as [L|G].
    + exfalso. now apply (N d).
    + destruct k; simpl; destruct (Rlt_dec (dr_t d) tEnd);
        try contradiction; exact E.
  - change (S n + k)%nat with (S (n + k)). rewrite loop_S in *.
    destruct (Rlt_dec (dr_t d) tEnd); [|exact E].
    destruct (iteration d) as [d'|what]; [|exact E].
    now apply IH.
Qed.

(** The loop is left normally only with [t >= tEnd]; the only exception
    that can end it is the step-size underflow; and a run that has ended,
    either way, ends the same however many more passes it is allowed. *)
Theorem run_outcome (n : nat) (d : driver) :
  (forall r, loop n d = Completed r -> tEnd <= dr_t r)
  /\ (forall what, loop n d = Failed what -> what = underflow)
  /\ (forall r k, loop n d = Completed r -> loop (n + k) d = Completed r)
  /\ (forall what k, loop n d = Failed what -> loop (n + k) d = Failed what).
Proof.
  split; [|split; [|split]].
  - revert d. induction n as [|n IH]; intros d r E.
    + rewrite loop_O in E. destruct (Rlt_dec (dr_t d) tEnd);
        [discriminate|]. injection E as <-. lra.
    + rewrite loop_S in E. destruct (Rlt_dec (dr_t d) tEnd).
      * destruct (iteration d) as [d'|what]; [|discriminate].
        now apply (IH d').
      * injection E as <-. lra.
  - revert d. induction n as [|n IH]; intros d what E.
    + rewrite loop_O in E. destruct (Rlt_dec (dr_t d) tEnd); discriminate.
    + rewrite loop_S in E. destruct (Rlt_dec (dr_t d) tEnd); [|discriminate].
      destruct (iteration d) as [d'|w] eqn:I.
      * now apply (IH d').
      * injection E as <-. exact (iteration_inr d w I).
  - intros r k E. apply loop_more_fuel; [exact E|discriminate].
  - intros what k E. apply loop_more_fuel; [exact E|discriminate].
Qed.

Lemma stiff_start_fails :
  loop 1 (start (bp_state 1e18) kdMinH) = Failed underflow.
Proof.
  rewrite loop_S.
  destruct (Rlt_dec (dr_t (start (bp_state 1e18) kdMinH)) tEnd) as [_|N];
    [|exfalso; apply N; cbn; unfold tEnd; lra].
  unfold iteration. fold (call (start (bp_state 1e18) kdMinH)).
  rewrite call_start. unfold bogackiShampineStepper.
  assert (E : errMax rhs (bp_step 1e18 kdMinH) > 1).
  { rewrite bp_step_errMax. exact bp_err_stiff. }
  rewrite (stepper_reject rhs _ E).
  destruct (Rlt_dec (st_h (rejected rhs (bp_step 1e18 kdMinH))) kdMinH)
    as [_|N]; [reflexivity|].
  exfalso. apply N. cbn [rejected st_h bp_step].
  pose proof (fct_below_safety rhs _ E) as F.
  assert (M : Rmax (fct rhs (bp_step 1e18 kdMinH)) kdShrinkMax < 1).
  { apply Rmax_lub_lt; [unfold kdSafety in F|unfold kdShrinkMax]; lra. }
  unfold kdMinH in *. nra.
Qed.

Lemma run_outcome_witness :
  loop (1 + 3) (start (bp_state 1e18) kdMinH) = Failed underflow.
Proof.
  apply (run_outcome 1 (start (bp_state 1e18) kdMinH)).
  exact stiff_start_fails.
Defined.

(** ** Counters, time and rows along a run *)

Lemma advanced_h_bounds (s : step) :
  0 < st_h s -> errMax rhs s <= 1 ->
  kdSafety * st_h s <= st_h (advanced rhs s) <= kdGrowMax * st_h s.
Proof.
  intros P A. cbn [advanced st_h].
  pose proof (fct_above_safety rhs s A) as L.
  pose proof (Rmin_r (fct rhs s) kdGrowMax) as U.
  assert (G : kdSafety <= Rmin (fct rhs s) kdGrowMax).
  { apply Rmin_glb; [exact L|unfold kdSafety, kdGrowMax; lra]. }
  unfold kdSafety, kdGrowMax in *. split; nra.
Qed.

Lemma rejected_h_bounds (s : step) :
  0 < st_h s -> errMax rhs s > 1 ->
  kdShrinkMax * st_h s <= st_h (rejected rhs s) < kdSafety * st_h s.
Proof.
  intros P R. cbn [rejected st_h].
  pose proof (fct_below_safety rhs s R) as U.
  pose proof (Rmax_r (fct rhs s) kdShrinkMax) as L.
  assert (G : Rmax (fct rhs s) kdShrinkMax < kdSafety).
  { apply Rmax_lub_lt; [exact U|unfold kdSafety, kdShrinkMax; lra]. }
  unfold kdSafety, kdShrinkMax in *. split; nra.
Qed.

(** What a returning pass does, by cases on acceptance. *)
Lemma pass_facts (d d' : driver) :
  0 < dr_dt d -> iteration d = inl d' ->
  0 < dr_dt d'
  /\ nStep d' = S (nStep d)
  /\ (exists l, ofs d' = ofs d ++ l /\ (length l <= 1)%nat)
  /\ ((nOK d' = nOK d /\ dr_t d' = dr_t d /\ dr_x d' = dr_x d
       /\ dr_dxdt1 d' = dr_dxdt1 d
       /\ kdMinH <= dr_dt d' < kdSafety * dr_dt d)
      \/ (nOK d' = S (nOK d) /\ dr_t d' = dr_t d + dr_dt d
          /\ dr_x d' = xnew rhs (call d)
          /\ dr_dxdt1 d' = dxdt4 rhs (call d)
          /\ kdSafety * dr_dt d <= dr_dt d' <= kdGrowMax * dr_dt d)).
Proof.
  intros P I.
  destruct (iteration_inl d d' I)
    as (acc & s' & B & T & X & K & H & N & S & _ & _ & O & _).
  assert (Ph : 0 < st_h (call d)) by exact P.
  split; [|split; [exact S|split]].
  - destruct (stepper_returned _ _ _ B) as [(_ & A & ->)|(_ & R & -> & _)];
      rewrite H.
    + pose proof (advanced_h_bounds _ Ph A). unfold kdSafety in *.
      cbn [call st_h] in *. lra.
    + pose proof (rejected_h_bounds _ Ph R). unfold kdShrinkMax in *.
      cbn [call st_h] in *. lra.
  - rewrite O. destruct (Rgt_dec (st_t s') (dr_tsav d)).
    + eexists. split; [reflexivity|]. simpl. lia.
    + exists []. split; [now rewrite app_nil_r|]. simpl. lia.
  - destruct (stepper_returned _ _ _ B)
      as [(-> & A & ->)|(-> & R & -> & M)].
    + right. pose proof (advanced_h_bounds _ Ph A) as HB.
      rewrite N, T, X, K, H. cbn [advanced st_t st_x st_dxdt1 call] in *.
      repeat split; try reflexivity; apply HB.
    + left. pose proof (rejected_h_bounds _ Ph R) as HB.
      rewrite N, T, X, K, H. cbn [rejected st_t st_x st_dxdt1 call] in *.
      repeat split; try reflexivity; [exact M|apply HB].
Qed.

Lemma reaches_nStep (n : nat) (d r : driver) :
  reaches n d r ->
  (nStep r <= nStep d + n)%nat
  /\ (loop n d = Running r -> nStep r = (nStep d + n)%nat).
Proof.
  revert d. induction n as [|n IH]; intros d [E|E].
  - rewrite loop_O in E. destruct (Rlt_dec (dr_t d) tEnd);
      [injection E as <-|discriminate]. split; [lia|intros _; lia].
  - rewrite loop_O in *. destruct (Rlt_dec (dr_t d) tEnd);
      [discriminate|injection E as <-]. split; [lia|discriminate].
  - rewrite loop_S in *. destruct (Rlt_dec (dr_t d) tEnd); [|discriminate].
    destruct (iteration d) as [d'|what] eqn:I; [|discriminate].
    destruct (iteration_inl d d' I) as (_ & _ & _ & _ & _ & _ & _ & _ & S & _).
    destruct (IH d' (or_introl E)) as [U V]. rewrite S in U, V.
    split; [lia|intros _; rewrite V by exact E; lia].
  - rewrite loop_S in *. destruct (Rlt_dec (dr_t d) tEnd).
    + destruct (iteration d) as [d'|what] eqn:I; [|discriminate].
      destruct (iteration_inl d d' I)
        as (_ & _ & _ & _ & _ & _ & _ & _ & S & _).
      destruct (IH d' (or_intror E)) as [U V]. rewrite S in U.
      split; [lia|intros C; rewrite C in E; discriminate].
    + injection E as <-. split; [lia|discriminate].
Qed.

Lemma run_facts (n : nat) (d r : driver) :
  0 < dr_dt d -> reaches n d r ->
  (nStep d <= nStep r)%nat
  /\ (nOK d <= nOK r)%nat
  /\ (nOK r + nStep d <= nOK d + nStep r)%nat
  /\ (exists l, ofs r = ofs d ++ l
                /\ (length l + nStep d <= nStep r)%nat)
  /\ dr_t d <= dr_t r
  /\ (nOK r = nOK d ->
      dr_t r = dr_t d /\ dr_x r = dr_x d /\ dr_dxdt1 r = dr_dxdt1 d).
Proof.
  intros P H.
  pose (Q := fun r : driver =>
    0 < dr_dt r
    /\ (nStep d <= nStep r)%nat
    /\ (nOK d <= nOK r)%nat
    /\ (nOK r + nStep d <= nOK d + nStep r)%nat
    /\ (exists l, ofs r = ofs d ++ l
                  /\ (length l + nStep d <= nStep r)%nat)
    /\ dr_t d <= dr_t r
    /\ (nOK r = nOK d ->
        dr_t r = dr_t d /\ dr_x r = dr_x d /\ dr_dxdt1 r = dr_dxdt1 d)).
  assert (I : Q r).
  { apply (reaches_invariant Q) with (n := n) (d := d); [|
      |exact H].
    - intros a a' (Pa & Sa & Oa & Ca & (l & La & Ll) & Ta & Fa) It.
      destruct (pass_facts a a' Pa It)
        as (Pa' & Sa' & (l' & La' & Ll') & Cases).
      unfold Q. split; [exact Pa'|]. split; [lia|].
      assert (Ol : exists l0, ofs a' = ofs d ++ l0
                              /\ (length l0 + nStep d <= nStep a')%nat).
      { exists (l ++ l'). rewrite La', La, app_assoc. split; [reflexivity|].
        rewrite length_app. lia. }
      destruct Cases as [(N & T & X & K & _)|(N & T & _ & _ & _)].
      + split; [lia|]. split; [lia|]. split; [exact Ol|].
        split; [lra|]. intros E. rewrite T, X, K. apply Fa. lia.
      + split; [lia|]. split; [lia|]. split; [exact Ol|].
        split; [lra|]. intros E. exfalso. lia.
    - unfold Q. split; [exact P|]. split; [lia|]. split; [lia|].
      split; [lia|]. split; [exists []; split;
                               [now rewrite app_nil_r|simpl; lia]|].
      split; [lra|]. intros _. now repeat split. }
  destruct I as (_ & Sa & Oa & Ca & La & Ta & Fa).
  split; [exact Sa|]. split; [exact Oa|].
  split; [exact Ca|]. split; [exact La|]. split; [exact Ta|exact Fa].
Qed.

(** Along a run with a positive step size: [nStep] counts the passes made
    (exactly the allowed number when the run is still going); [nOK] grows
    by at most one per pass; at most one row is written per pass and rows
    are only ever appended; time never decreases; and as long as no step
    has been accepted, [t], [x] and [dxdt1] are what they were. *)
Theorem run_counters (n : nat) (d r : driver) :
  0 < dr_dt d -> reaches n d r ->
  (nStep d <= nStep r <= nStep d + n)%nat
  /\ (loop n d = Running r -> nStep r = (nStep d + n)%nat)
  /\ (nOK d <= nOK r)%nat
  /\ (nOK r + nStep d <= nOK d + nStep r)%nat
  /\ (exists l, ofs r = ofs d ++ l
                /\ (length l + nStep d <= nStep r)%nat)
  /\ dr_t d <= dr_t r
  /\ (nOK r = nOK d ->
      dr_t r = dr_t d /\ dr_x r = dr_x d /\ dr_dxdt1 r = dr_dxdt1 d).
Proof.
  intros P H.
  destruct (reaches_nStep n d r H) as [U V].
  destruct (run_facts n d r P H) as (S & O & C & L & T & F).
  split; [lia|]. split; [exact V|]. split; [exact O|].
  split; [exact C|]. split; [exact L|]. split; [exact T|exact F].
Qed.

(** A first pass that is accepted, used as a concrete run below. *)
Lemma one_pass_run :
  exists r,
    iteration (start (bp_state 1) dt0) = inl r
    /\ loop 1 (start (bp_state 1) dt0) = Running r
    /\ nOK r = 1%nat.
Proof.
  set (d := start (bp_state 1) dt0).
  assert (A : errMax rhs (call d) <= 1).
  { unfold d. rewrite call_start, bp_step_errMax. exact bp_err_small. }
  destruct (iteration_accepted d A) as (r & I & T & _ & _ & _ & N & _).
  exists r. split; [exact I|]. split; [|exact N].
  rewrite (loop_step 0 d r); [|cbn; unfold tEnd; lra|exact I].
  apply loop_running. rewrite T. cbn. unfold tEnd, dt0. lra.
Qed.

Lemma run_counters_witness :
  exists r,
    reaches 1 (start (bp_state 1) dt0) r
    /\ nStep r = (0 + 1)%nat
    /\ dr_t (start (bp_state 1) dt0) <= dr_t r.
Proof.
  destruct one_pass_run as (r & _ & L & _).
  assert (P : 0 < dr_dt (start (bp_state 1) dt0))
    by (cbn; unfold dt0; lra).
  assert (H : reaches 1 (start (bp_state 1) dt0) r) by now left.
  exists r. split; [exact H|].
  destruct (run_counters 1 (start (bp_state 1) dt0) r P H)
    as (_ & V & _ & _ & _ & T & _).
  split; [exact (V L)|exact T].
Defined.

(** ** Rejections in a row *)

(** While a run makes [n] passes without accepting a step, [t], [x] and
    [dxdt1] stay as they are and every pass shrinks the step size below
    [kdSafety] times its value while leaving it at least [kdMinH]; hence
    [kdMinH <= kdSafety^n * dt], which bounds the number of rejections that
    can follow one another before a step is accepted or the underflow is
    raised. *)
Theorem rejections_in_a_row (n : nat) (d r : driver) :
  0 < dr_dt d -> loop n d = Running r -> nOK r = nOK d ->
  dr_t r = dr_t d /\ dr_x r = dr_x d /\ dr_dxdt1 r = dr_dxdt1 d
  /\ dr_dt r <= kdSafety ^ n * dr_dt d
  /\ ((1 <= n)%nat -> kdMinH <= dr_dt r).
Proof.
  intros P L E.
  destruct (run_facts n d r P (or_introl L)) as (_ & _ & _ & _ & _ & F).
  destruct (F E) as (T & X & K).
  split; [exact T|]. split; [exact X|]. split; [exact K|].
  clear T X K F. revert d P L E.
  induction n as [|n IH]; intros d P L E.
  - rewrite loop_O in L. destruct (Rlt_dec (dr_t d) tEnd); [|discriminate].
    injection L as <-. split; [simpl; lra|intros H; lia].
  - rewrite loop_S in L. destruct (Rlt_dec (dr_t d) tEnd); [|discriminate].
    destruct (iteration d) as [d'|what] eqn:I; [|discriminate].
    destruct (pass_facts d d' P I) as (P' & _ & _ & Cases).
    destruct (run_facts n d' r P' (or_introl L))
      as (_ & M & _ & _ & _ & _).
    destruct Cases as [(N & _ & _ & _ & B)|(N & _)]; [|exfalso; lia].
    assert (E' : nOK r = nOK d') by lia.
    destruct (IH d' P' L E') as [U V].
    assert (Q : 0 <= kdSafety ^ n)
      by (apply pow_le; unfold kdSafety; lra).
    split.
    + simpl. unfold kdSafety in *. nra.
    + intros _. destruct n as [|n]; [|apply V; lia].
      rewrite loop_O in L. destruct (Rlt_dec (dr_t d') tEnd);
        [|discriminate]. injection L as <-. lra.
Qed.

Lemma one_rejected_pass :
  exists r,
    loop 1 (start (bp_state 1) 100) = Running r
    /\ nOK r = nOK (start (bp_state 1) 100).
Proof.
  set (d := start (bp_state 1) 100).
  assert (E : errMax rhs (call d) > 1).
  { unfold d. rewrite call_start, bp_step_errMax. exact bp_err_large. }
  assert (L : kdMinH <= dr_dt d * Rmax (fct rhs (call d)) kdShrinkMax).
  { pose proof (Rmax_r (fct rhs (call d)) kdShrinkMax) as M.
    cbn [d start dr_dt]. unfold kdMinH, kdShrinkMax in *. lra. }
  destruct (iteration_rejected d E L) as (r & I & T & _ & _ & _ & N & _).
  exists r. split; [|exact N].
  rewrite (loop_step 0 d r); [|cbn; unfold tEnd; lra|exact I].
  apply loop_running. rewrite T. cbn. unfold tEnd. lra.
Qed.

Lemma rejections_in_a_row_witness :
  exists r,
    loop 1 (start (bp_state 1) 100) = Running r
    /\ dr_dt r <= kdSafety ^ 1 * 100
    /\ kdMinH <= dr_dt r.
Proof.
  destruct one_rejected_pass as (r & L & N).
  assert (P : 0 < dr_dt (start (bp_state 1) 100)) by (cbn; lra).
  exists r. split; [exact L|].
  destruct (rejections_in_a_row 1 (start (bp_state 1) 100) r P L N)
    as (_ & _ & _ & U & V).
  split; [exact U|apply V; lia].
Defined.

(** ** The rows of the data file *)

Lemma sorted_snoc (l : list R) (a : R) :
  Sorted Rle l -> (forall t, In t l -> t <= a) -> Sorted Rle (l ++ [a]).
Proof.
  induction l as [|b l IH]; intros S B; simpl.
  - constructor; constructor.
  - inversion S as [|? ? S' H']; subst. constructor.
    + apply IH; [exact S'|]. intros t H. apply B. now right.
    + destruct l as [|c l]; simpl.
      * constructor. apply B. now left.
      * constructor. inversion H'. assumption.
Qed.

(** The rows written by a run started by [start] with a positive step
    size: their times never decrease; the row with (0-based) index [k] has
    a time greater than [k * dtsav] and no later than the current time, so
    in particular the initial state at [t = 0] is never written; and [tsav]
    is [dtsav] times the number of rows. *)
Theorem rows_ordered (n : nat) (x : vec) (dt : R) (r : driver) :
  0 < dt -> reaches n (start x dt) r ->
  Sorted Rle (sample_times r)
  /\ (forall k t, nth_error (sample_times r) k = Some t ->
                  INR k * dtsav < t <= dr_t r)
  /\ dr_tsav r = INR (length (ofs r)) * dtsav.
Proof.
  intros P H.
  pose (Q := fun r : driver =>
    0 < dr_dt r
    /\ Sorted Rle (sample_times r)
    /\ (forall k t, nth_error (sample_times r) k = Some t ->
                    INR k * dtsav < t <= dr_t r)
    /\ dr_tsav r = INR (length (ofs r)) * dtsav).
  assert (I : Q r).
  { apply (reaches_invariant Q) with (n := n) (d := start x dt);
      [| |exact H].
    - intros a a' (Pa & Sa & Na & Ta) It.
      destruct (pass_facts a a' Pa It) as (Pa' & _ & _ & Cases).
      assert (Mono : dr_t a <= dr_t a').
      { destruct Cases as [(_ & T & _)|(_ & T & _)]; lra. }
      destruct (iteration_inl a a' It)
        as (acc & s' & _ & T & _ & _ & _ & _ & _ & _ & _ & O & V).
      rewrite <- T in O, V.
      unfold Q. split; [exact Pa'|].
      destruct (Rgt_dec (dr_t a') (dr_tsav a)) as [G|NG].
      + unfold sample_times in *. rewrite O, V, map_app. simpl map.
        split; [|split].
        * apply sorted_snoc; [exact Sa|].
          intros t Ht. apply In_nth_error in Ht. destruct Ht as [k Hk].
          destruct (Na k t Hk). lra.
        * intros k t Hk.
          destruct (Nat.lt_ge_cases k (length (map fst (ofs a)))) as [Lt|Ge].
          -- rewrite nth_error_app1 in Hk by exact Lt.
             destruct (Na k t Hk). lra.
          -- rewrite nth_error_app2 in Hk by exact Ge.
             destruct (k - length (map fst (ofs a)))%nat as [|j] eqn:D.
             ++ simpl in Hk. injection Hk as <-.
                assert (k = length (ofs a))
                  by (rewrite length_map in *; lia).
                subst k. rewrite <- Ta. lra.
             ++ simpl in Hk. destruct j; discriminate.
        * rewrite length_app, Ta. simpl length.
          rewrite Nat.add_1_r, S_INR. lra.
      + rewrite O, V. unfold sample_times in *. rewrite O.
        split; [exact Sa|]. split; [|exact Ta].
        intros k t Hk. destruct (Na k t Hk). lra.
    - unfold Q. cbn. split; [exact P|]. split; [constructor|].
      split; [|lra]. intros k t Hk. destruct k; discriminate. }
  destruct I as (_ & S & N & T).
  split; [exact S|]. split; [exact N|exact T].
Qed.

Lemma rows_ordered_witness :
  exists r,
    reaches 1 (start (bp_state 1) dt0) r /\ Sorted Rle (sample_times r).
Proof.
  destruct one_pass_run as (r & _ & L & _).
  assert (H : reaches 1 (start (bp_state 1) dt0) r) by now left.
  exists r. split; [exact H|].
  apply (rows_ordered 1 (bp_state 1) dt0 r); [unfold dt0; lra|exact H].
Defined.

(** ** The recorded smallest and largest step size *)

Lemma pass_extremes (d d' : driver) :
  iteration d = inl d' ->
  dtMin d' = Rmin (dtMin d) (dr_dt d')
  /\ dtMax d' = (if Rlt_dec (dr_dt d') (dtMin d) then dtMax d
                 else Rmax (dtMax d) (dr_dt d')).
Proof.
  intros I.
  destruct (iteration_inl d d' I)
    as (acc & s' & _ & _ & _ & _ & H & _ & _ & Mi & Ma & _).
  rewrite <- H in Mi, Ma. rewrite Mi, Ma. split.
  - unfold Rmin. destruct (Rlt_dec (dr_dt d') (dtMin d)),
      (Rle_dec (dtMin d) (dr_dt d')); try reflexivity; lra.
  - destruct (Rlt_dec (dr_dt d') (dtMin d)); [reflexivity|].
    unfold Rmax. destruct (Rgt_dec (dr_dt d') (dtMax d)),
      (Rle_dec (dtMax d) (dr_dt d')); try reflexivity; lra.
Qed.

(** Along any run the recorded minimum never increases and the recorded
    maximum never decreases, and once a pass has been made the recorded
    minimum is at most the current step size. *)
Theorem step_size_extremes (n : nat) (d r : driver) :
  reaches n d r ->
  dtMin r <= dtMin d
  /\ dtMax d <= dtMax r
  /\ ((nStep d < nStep r)%nat -> dtMin r <= dr_dt r).
Proof.
  intros H.
  pose (Q := fun r : driver =>
    dtMin r <= dtMin d /\ dtMax d <= dtMax r
    /\ (nStep d <= nStep r)%nat
    /\ ((nStep d < nStep r)%nat -> dtMin r <= dr_dt r)).
  assert (I : Q r).
  { apply (reaches_invariant Q) with (n := n) (d := d); [| |exact H].
    - intros a a' (Mi & Ma & S & _) It.
      destruct (pass_extremes a a' It) as [Mi' Ma'].
      destruct (iteration_inl a a' It)
        as (_ & _ & _ & _ & _ & _ & _ & _ & S' & _).
      unfold Q. rewrite Mi', Ma', S'.
      pose proof (Rmin_l (dtMin a) (dr_dt a')).
      pose proof (Rmin_r (dtMin a) (dr_dt a')).
      split; [lra|]. split.
      + destruct (Rlt_dec (dr_dt a') (dtMin a)); [exact Ma|].
        pose proof (Rmax_l (dtMax a) (dr_dt a')). lra.
      + split; [lia|]. intros _. lra.
    - unfold Q. split; [lra|]. split; [lra|]. split; [lia|]. intros F. lia. }
  destruct I as (Mi & Ma & _ & C).
  split; [exact Mi|]. split; [exact Ma|exact C].
Qed.

Lemma step_size_extremes_witness :
  exists r,
    reaches 1 (start (bp_state 1) dt0) r
    /\ dtMin r <= dt0 /\ kdMinH <= dtMax r.
Proof.
  destruct one_pass_run as (r & _ & L & _).
  assert (H : reaches 1 (start (bp_state 1) dt0) r) by now left.
  exists r. split; [exact H|].
  destruct (step_size_extremes 1 (start (bp_state 1) dt0) r H)
    as (Mi & Ma & _).
  split; [exact Mi|exact Ma].
Defined.

(** The maximum is updated only by a pass whose step size is not a new
    minimum.  So while a run whose recorded minimum is its current step
    size (as at the start of [main], where both are [dt0]) has only seen
    rejections, each one sets a new minimum and the recorded maximum stays
    what it was: for [main], [kdMinH], below every step size used. *)
Theorem maximum_not_recorded_while_rejecting (n : nat) (d r : driver) :
  0 < dr_dt d -> dtMin d = dr_dt d ->
  loop n d = Running r -> nOK r = nOK d ->
  dtMin r = dr_dt r /\ dtMax r = dtMax d.
Proof.
  revert d. induction n as [|n IH]; intros d P M L E.
  - rewrite loop_O in L. destruct (Rlt_dec (dr_t d) tEnd); [|discriminate].
    injection L as <-. now split.
  - rewrite loop_S in L. destruct (Rlt_dec (dr_t d) tEnd); [|discriminate].
    destruct (iteration d) as [d'|what] eqn:I; [|discriminate].
    destruct (pass_facts d d' P I) as (P' & _ & _ & Cases).
    destruct (run_facts n d' r P' (or_introl L))
      as (_ & Mo & _ & _ & _ & _).
    destruct Cases as [(N & _ & _ & _ & B)|(N & _)]; [|exfalso; lia].
    destruct (pass_extremes d d' I) as [Mi Ma].
    assert (Lt : dr_dt d' < dtMin d)
      by (rewrite M; unfold kdSafety in B; lra).
    destruct (Rlt_dec (dr_dt d') (dtMin d)); [|contradiction].
    assert (Mi' : dtMin d' = dr_dt d').
    { rewrite Mi. apply Rmin_right. lra. }
    destruct (IH d' P' Mi' L) as [A C]; [lia|].
    split; [exact A|]. now rewrite C, Ma.
Qed.

Lemma bp_err_million : bp_err 1e6 (-0.04 * 1e6) dt0 > 1.
Proof.
  rewrite bp_err_closed. apply scaled_gt. unfold tolerance, dt0.
  rewrite Rabs_left by lra. lra.
Qed.

Lemma maximum_not_recorded_while_rejecting_witness :
  exists r,
    loop 1 (start (bp_state 1e6) dt0) = Running r
    /\ dtMin r = dr_dt r /\ dtMax r = kdMinH.
Proof.
  set (d := start (bp_state 1e6) dt0).
  assert (E : errMax rhs (call d) > 1).
  { unfold d. rewrite call_start, bp_step_errMax. exact bp_err_million. }
  assert (L : kdMinH <= dr_dt d * Rmax (fct rhs (call d)) kdShrinkMax).
  { pose proof (Rmax_r (fct rhs (call d)) kdShrinkMax) as M.
    cbn [d start dr_dt]. unfold kdMinH, kdShrinkMax, dt0 in *. lra. }
  destruct (iteration_rejected d E L) as (r & I & T & _ & _ & _ & N & _).
  assert (R : loop 1 d = Running r).
  { rewrite (loop_step 0 d r); [|cbn; unfold tEnd; lra|exact I].
    apply loop_running. rewrite T. cbn. unfold tEnd. lra. }
  exists r. split; [exact R|].
  apply (maximum_not_recorded_while_rejecting 1 d r);
    [cbn; unfold dt0; lra|reflexivity|exact R|exact N].
Defined.

(** ** Conserved totals along a run *)

Lemma moiety_rhs (m : list (R * Variables)) (t : R) (x dxdt : vec) :
  In m moieties -> combo m (rhs t x dxdt) = 0.
Proof.
  intros H. rewrite <- (moiety_derivative m x H).
  apply combo_ext. intros i. apply rhs_derivative.
Qed.

(** Every linear combination of species whose derivative [rhs] makes zero
    at every state (each conserved pair, each of the totals above) keeps,
    in exact arithmetic, its initial value through every pass of a run
    started by [start]: in the current state and in every row written. *)
Theorem run_conserves_totals
  (m : list (R * Variables)) (n : nat) (x : vec) (dt : R) (r : driver) :
  (forall t y d, combo m (rhs t y d) = 0) ->
  reaches n (start x dt) r ->
  combo m (dr_x r) = combo m x
  /\ Forall (fun row => combo m (snd row) = combo m x) (ofs r).
Proof.
  intros C H.
  pose (Q := fun r : driver =>
    combo m (dr_x r) = combo m x
    /\ combo m (dr_dxdt1 r) = 0
    /\ Forall (fun row => combo m (snd row) = combo m x) (ofs r)).
  assert (I : Q r).
  { apply (reaches_invariant Q) with (n := n) (d := start x dt);
      [| |exact H].
    - intros a a' (Xa & Ka & Fa) It.
      destruct (iteration_inl a a' It)
        as (acc & s' & B & _ & X & K & _ & _ & _ & _ & _ & O & _).
      assert (S : combo m (st_x s') = combo m x /\ combo m (st_dxdt1 s') = 0).
      { destruct (stepper_returned _ _ _ B)
          as [(_ & _ & ->)|(_ & _ & -> & _)];
          cbn [advanced rejected st_x st_dxdt1 call].
        - split.
          + rewrite (xnew_conserves rhs m C (call a)); [exact Xa|exact Ka].
          + unfold dxdt4. cbv zeta. apply C.
        - now split. }
      destruct S as [Sx Sk].
      unfold Q. rewrite X, K, O. split; [exact Sx|]. split; [exact Sk|].
      destruct (Rgt_dec (st_t s') (dr_tsav a)); [|exact Fa].
      apply Forall_app. split; [exact Fa|]. constructor; [exact Sx|constructor].
    - unfold Q. cbn [start dr_x dr_dxdt1 ofs].
      split; [reflexivity|]. split; [apply C|constructor]. }
  destruct I as (Xr & _ & Fr). split; [exact Xr|exact Fr].
Qed.

Lemma run_conserves_totals_witness :
  exists r,
    reaches 1 (start (bp_state 1) dt0) r
    /\ combo [(1, Ca); (3, CaCaM)] (dr_x r)
       = combo [(1, Ca); (3, CaCaM)] (bp_state 1).
Proof.
  destruct one_pass_run as (r & _ & L & _).
  assert (H : reaches 1 (start (bp_state 1) dt0) r) by now left.
  exists r. split; [exact H|].
  apply (run_conserves_totals [(1, Ca); (3, CaCaM)] 1 (bp_state 1) dt0 r);
    [|exact H].
  intros t y d. apply moiety_rhs. simpl. now left.
Defined.

(** ** Steps over a constant slope, and steady states *)

Lemma flat_errMax (f : R -> vec -> vec -> vec) (s : step) :
  (forall i, dxdt2 f s i = st_dxdt1 s i) ->
  (forall i, dxdt3 f s i = st_dxdt1 s i) ->
  (forall i, dxdt4 f s i = st_dxdt1 s i) ->
  errMax f s = 0.
Proof.
  intros H2 H3 H4.
  assert (Z : forall i, erri f s i = 0).
  { intros i. unfold erri. cbv zeta. rewrite H2, H3, H4.
    replace (st_h s * (5.0 / 72.0 * st_dxdt1 s i - 1.0 / 12.0 * st_dxdt1 s i
                       - 1.0 / 9.0 * st_dxdt1 s i
                       + 1.0 / 8.0 * st_dxdt1 s i)) with 0 by lra.
    rewrite Rabs_R0. unfold Rdiv. apply Rmult_0_l. }
  destruct (errMax_attained f s) as [i Ei]. now rewrite Ei, Z.
Qed.

Lemma full_growth (f : R -> vec -> vec -> vec) (s : step) :
  errMax f s = 0 -> st_h (advanced f s) = st_h s * kdGrowMax.
Proof.
  intros E. cbn [advanced st_h]. f_equal. unfold fct. rewrite E.
  destruct (Rgt_dec 0 0.0) as [G|_]; [exfalso; lra|].
  apply Rmin_left. lra.
Qed.

(** When the three derivatives a call evaluates all equal the one passed
    in, the error estimate is zero, the step is accepted, [x] advances by
    exactly [h * dxdt1] and [h] grows by the full factor [kdGrowMax]. *)
Theorem constant_slope_step (f : R -> vec -> vec -> vec) (s : step) :
  (forall i, dxdt2 f s i = st_dxdt1 s i) ->
  (forall i, dxdt3 f s i = st_dxdt1 s i) ->
  (forall i, dxdt4 f s i = st_dxdt1 s i) ->
  errMax f s = 0
  /\ stepper f s = Returned true (advanced f s)
  /\ (forall i, xnew f s i = st_x s i + st_h s * st_dxdt1 s i)
  /\ st_h (advanced f s) = st_h s * kdGrowMax.
Proof.
  intros H2 H3 H4.
  pose proof (flat_errMax f s H2 H3 H4) as E.
  split; [exact E|]. split; [apply stepper_accept; lra|]. split.
  - intros i. unfold xnew. cbv zeta. rewrite H2, H3, H4. lra.
  - now apply full_growth.
Qed.

Lemma constant_slope_step_witness :
  errMax (fun _ _ _ => fun _ => 2) (Step 0 zeros (fun _ => 2) dt0) = 0.
Proof.
  apply (constant_slope_step (fun _ _ _ => fun _ => 2)
           (Step 0 zeros (fun _ => 2) dt0)); reflexivity.
Defined.

Lemma never_fails (P : driver -> Prop) :
  (forall d, P d -> exists d', iteration d = inl d' /\ P d') ->
  forall n d what, P d -> loop n d <> Failed what.
Proof.
  intros Step. induction n as [|n IH]; intros d what H.
  - rewrite loop_O. destruct (Rlt_dec (dr_t d) tEnd); discriminate.
  - rewrite loop_S. destruct (Rlt_dec (dr_t d) tEnd); [|discriminate].
    destruct (Step d H) as (d' & I & H'). rewrite I. now apply IH.
Qed.

Section SteadyState.

Variable x : vec.
Hypothesis steady : forall i, rhs 0 x zeros i = 0.

Lemma resting_stage (d : driver) (t : R) (y : vec) (i : Variables) :
  resting x d -> (forall j, y j = dr_x d j) ->
  rhs t y zeros i = dr_dxdt1 d i.
Proof.
  intros [X K] Y. rewrite K, <- (steady i).
  apply rhs_ext. intros j. now rewrite Y, X.
Qed.

Lemma resting_flat (d : driver) :
  resting x d ->
  (forall i, dxdt2 rhs (call d) i = dr_dxdt1 d i)
  /\ (forall i, dxdt3 rhs (call d) i = dr_dxdt1 d i)
  /\ (forall i, dxdt4 rhs (call d) i = dr_dxdt1 d i).
Proof.
  intros H. pose proof H as [X K].
  assert (S2 : forall i, dxdt2 rhs (call d) i = dr_dxdt1 d i).
  { intros i. apply resting_stage; [exact H|].
    intros j. unfold xtmp2. cbn [call st_x st_h st_dxdt1].
    rewrite K. lra. }
  assert (S3 : forall i, dxdt3 rhs (call d) i = dr_dxdt1 d i).
  { intros i. apply resting_stage; [exact H|].
    intros j. unfold xtmp3. cbv zeta. rewrite S2.
    cbn [call st_x st_h st_dxdt1]. rewrite K. lra. }
  split; [exact S2|]. split; [exact S3|].
  intros i. apply resting_stage; [exact H|].
  intros j. unfold xtmp4. cbv zeta. rewrite S2, S3.
  cbn [call st_x st_h st_dxdt1]. rewrite K. lra.
Qed.

Lemma resting_pass (d : driver) :
  resting x d ->
  exists d',
    iteration d = inl d' /\ resting x d'
    /\ dr_t d' = dr_t d + dr_dt d
    /\ dr_dt d' = dr_dt d * kdGrowMax
    /\ nOK d' = S (nOK d) /\ nStep d' = S (nStep d).
Proof.
  intros H. destruct (resting_flat d H) as (S2 & S3 & S4).
  pose proof (flat_errMax rhs (call d) S2 S3 S4) as E.
  pose proof (full_growth rhs (call d) E) as HN.
  assert (XN : forall i, xnew rhs (call d) i
                         = st_x (call d) i
                           + st_h (call d) * st_dxdt1 (call d) i).
  { intros i. unfold xnew. cbv zeta. rewrite S2, S3, S4.
    cbn [call st_dxdt1]. lra. }
  assert (A : errMax rhs (call d) <= 1) by lra.
  destruct (iteration_accepted d A)
    as (d' & I & T & X & K & Hd & N & S & _).
  exists d'. split; [exact I|]. destruct H as [Hx Hk].
  split; [split|].
  - intros i. rewrite X, XN. cbn [call st_x st_h st_dxdt1].
    rewrite Hk, Hx. lra.
  - intros i. rewrite K, S4. apply Hk.
  - split; [exact T|]. split; [|now split].
    rewrite Hd. cbn [advanced st_h] in HN. exact HN.
Qed.

End SteadyState.

(** A run started at a state where the model's derivative is zero never
    fails; every pass is accepted, leaves [x] at that state, and
    multiplies the step size by [kdGrowMax], so after [k] passes the step
    size is [dt * kdGrowMax^k]; every row written carries that state. *)
Theorem steady_state_run (x : vec) (dt : R) (n : nat) :
  (forall i, rhs 0 x zeros i = 0) ->
  (forall what, loop n (start x dt) <> Failed what)
  /\ (forall r, reaches n (start x dt) r ->
        (forall i, dr_x r i = x i)
        /\ nOK r = nStep r
        /\ dr_dt r = dt * kdGrowMax ^ nStep r
        /\ Forall (fun row => forall i, snd row i = x i) (ofs r)).
Proof.
  intros steady.
  assert (R0 : resting x (start x dt)).
  { split; intros i; cbn [start dr_x dr_dxdt1]; [reflexivity|].
    rewrite <- (steady i). now apply rhs_ext. }
  split.
  - intros what. apply (never_fails (resting x)); [|exact R0].
    intros d H. destruct (resting_pass x steady d H) as (d' & I & H' & _).
    now exists d'.
  - intros r H.
    pose (Q := fun r : driver =>
      resting x r /\ nOK r = nStep r
      /\ dr_dt r = dt * kdGrowMax ^ nStep r
      /\ Forall (fun row => forall i, snd row i = x i) (ofs r)).
    assert (I : Q r).
    { apply (reaches_invariant Q) with (n := n) (d := start x dt);
        [| |exact H].
      - intros a a' (Ra & Na & Ha & Fa) It.
        destruct (resting_pass x steady a Ra)
          as (d' & I' & R' & _ & Hd & N' & S').
        rewrite It in I'. injection I' as <-.
        destruct (iteration_inl a a' It)
          as (acc & s' & _ & _ & X & _ & _ & _ & _ & _ & _ & O & _).
        unfold Q. split; [exact R'|]. split; [lia|]. split.
        + rewrite Hd, Ha, S'. simpl. lra.
        + rewrite O. destruct (Rgt_dec (st_t s') (dr_tsav a)); [|exact Fa].
          apply Forall_app. split; [exact Fa|].
          constructor; [|constructor]. cbn [snd]. rewrite <- X. apply R'.
      - unfold Q. split; [exact R0|]. cbn [start nOK nStep dr_dt ofs].
        split; [reflexivity|]. split; [simpl; lra|constructor]. }
    destruct I as ([X _] & N & Hh & F).
    split; [exact X|]. split; [exact N|]. split; [exact Hh|exact F].
Qed.

Lemma zeros_steady (i : Variables) : rhs 0 zeros zeros i = 0.
Proof.
  assert (O : bp_only zeros) by (intros j _; reflexivity).
  destruct (rhs_bp_only 0 zeros zeros O) as [Z V].
  destruct i; try (apply Z; discriminate).
  rewrite V. unfold zeros. lra.
Qed.

Lemma steady_state_run_witness :
  loop 5 (start zeros dt0) <> Failed underflow.
Proof.
  exact (proj1 (steady_state_run zeros dt0 5 zeros_steady) underflow).
Defined.

(** ** A zero step size *)

Lemma zero_step_pass (d : driver) :
  dr_dt d = 0 ->
  exists d',
    iteration d = inl d'
    /\ dr_t d' = dr_t d /\ dr_dt d' = 0 /\ nOK d' = S (nOK d)
    /\ (forall i, dr_x d' i = dr_x d i).
Proof.
  intros Z.
  assert (Zh : st_h (call d) = 0) by exact Z.
  assert (E0 : forall i, erri rhs (call d) i = 0).
  { intros i. unfold erri. cbv zeta. rewrite Zh, Rmult_0_l, Rabs_R0.
    unfold Rdiv. apply Rmult_0_l. }
  assert (E : errMax rhs (call d) = 0).
  { destruct (errMax_attained rhs (call d)) as [i Ei]. now rewrite Ei, E0. }
  assert (A : errMax rhs (call d) <= 1) by lra.
  destruct (iteration_accepted d A) as (d' & I & T & X & _ & H & N & _).
  exists d'. split; [exact I|]. split; [rewrite T, Z; lra|].
  split; [rewrite H, Z; lra|]. split; [exact N|].
  intros i. rewrite X. unfold xnew. cbv zeta. rewrite Zh.
  cbn [call st_x]. lra.
Qed.

(** With a step size of zero every pass is accepted without moving: [t]
    and [x] stay, the step size stays zero and [nOK] counts up, so a run
    with [t < tEnd] is still going after any number of passes: it neither
    completes nor raises the underflow. *)
Theorem zero_step_never_ends (n : nat) (d : driver) :
  dr_dt d = 0 -> dr_t d < tEnd ->
  exists r,
    loop n d = Running r
    /\ dr_t r = dr_t d /\ dr_dt r = 0 /\ nOK r = (nOK d + n)%nat
    /\ (forall i, dr_x r i = dr_x d i).
Proof.
  revert d. induction n as [|n IH]; intros d Z L.
  - exists d. split; [now apply loop_running|].
    split; [reflexivity|]. split; [exact Z|]. split; [lia|reflexivity].
  - destruct (zero_step_pass d Z) as (d' & I & T & Z' & N & X).
    destruct (IH d' Z') as (r & Lr & Tr & Zr & Nr & Xr); [lra|].
    exists r. split; [now rewrite (loop_step n d d' L I)|].
    split; [lra|]. split; [exact Zr|]. split; [lia|].
    intros i. now rewrite Xr, X.
Qed.

Lemma zero_step_never_ends_witness :
  exists r, loop 7 (start x0 0) = Running r /\ nOK r = (0 + 7)%nat.
Proof.
  destruct (zero_step_never_ends 7 (start x0 0)) as (r & L & _ & _ & N & _);
    [reflexivity|cbn; unfold tEnd; lra|].
  exists r. split; [exact L|exact N].
Defined.

(** ** The final report *)

Lemma completed_past_end (n : nat) (d r : driver) :
  loop n d = Completed r -> tEnd <= dr_t r.
Proof.
  revert d. induction n as [|n IH]; intros d E.
  - rewrite loop_O in E. destruct (Rlt_dec (dr_t d) tEnd); [discriminate|].
    injection E as <-. lra.
  - rewrite loop_S in E. destruct (Rlt_dec (dr_t d) tEnd).
    + destruct (iteration d) as [d'|what]; [|discriminate]. now apply (IH d').
    + injection E as <-. lra.
Qed.

(** When a run started by [start] with a positive step size leaves the
    loop normally, at least one step has been accepted and [nOK <= nStep],
    so the report divides by a positive [nStep]: the proportion of bad
    steps lies in [0, 1) and the reported average step size in
    (0, tEnd]. *)
Theorem report_well_defined (n : nat) (x : vec) (dt : R) (r : driver) :
  0 < dt -> loop n (start x dt) = Completed r ->
  (1 <= nOK r <= nStep r)%nat
  /\ 0 <= proportion_bad_steps (report_of r) < 1
  /\ 0 < average_step_size (report_of r) <= tEnd.
Proof.
  intros P C.
  pose proof (completed_past_end n _ r C) as T.
  destruct (run_facts n (start x dt) r P (or_intror C))
    as (_ & _ & B & _ & _ & F).
  cbn [start nOK nStep dr_t] in B, F.
  assert (N1 : (1 <= nOK r)%nat).
  { destruct (nOK r) as [|k] eqn:E; [|lia].
    destruct (F eq_refl) as [T0 _]. unfold tEnd in T. lra. }
  assert (N2 : (nOK r <= nStep r)%nat) by lia.
  split; [lia|].
  assert (I1 : 1 <= INR (nOK r)) by (apply (le_INR 1); exact N1).
  assert (I2 : INR (nOK r) <= INR (nStep r)) by (apply le_INR; exact N2).
  assert (I3 : 0 < / INR (nStep r)) by (apply Rinv_0_lt_compat; lra).
  assert (I4 : INR (nStep r) * / INR (nStep r) = 1) by (apply Rinv_r; lra).
  cbn [report_of proportion_bad_steps average_step_size].
  unfold Rdiv, tEnd. set (q := / INR (nStep r)) in *.
  split; split; nra.
Qed.

Lemma report_well_defined_witness :
  exists r,
    loop 1 (start zeros tEnd) = Completed r
    /\ 0 <= proportion_bad_steps (report_of r) < 1.
Proof.
  assert (R0 : resting zeros (start zeros tEnd)).
  { split; intros i; cbn [start dr_x dr_dxdt1]; [reflexivity|].
    rewrite <- (zeros_steady i). now apply rhs_ext. }
  destruct (resting_pass zeros zeros_steady _ R0) as (r & I & _ & T & _).
  assert (C : loop 1 (start zeros tEnd) = Completed r).
  { rewrite (loop_step 0 _ r); [|cbn; unfold tEnd; lra|exact I].
    rewrite loop_O. destruct (Rlt_dec (dr_t r) tEnd) as [L|_];
      [|reflexivity].
    exfalso. rewrite T in L. cbn in L. unfold tEnd in L. lra. }
  exists r. split; [exact C|].
  apply (report_well_defined 1 zeros tEnd r); [unfold tEnd; lra|exact C].
Defined.

(** ** What the error estimate measures *)

(** The scaled error of a component is the distance between the state the
    call would commit and the point at which it evaluated stage 4, divided
    by [tolerance]; so whenever a step is accepted the two lie within
    [tolerance] of each other in every component. *)
Theorem accepted_gap_within_tolerance
  (f : R -> vec -> vec -> vec) (s : step) :
  (forall i, erri f s i = Rabs (xnew f s i - xtmp4 f s i) / tolerance)
  /\ (errMax f s <= 1 ->
      forall i, Rabs (xnew f s i - xtmp4 f s i) <= tolerance).
Proof.
  assert (G : forall i,
             erri f s i = Rabs (xnew f s i - xtmp4 f s i) / tolerance).
  { intros i. rewrite commit_minus_stage4_point. reflexivity. }
  split; [exact G|].
  intros A i. pose proof (errMax_upper f s i) as U. rewrite G in U.
  pose proof tolerance_pos as T.
  assert (Q : Rabs (xnew f s i - xtmp4 f s i) / tolerance <= 1) by lra.
  apply (Rmult_le_compat_r tolerance) in Q; [|lra].
  unfold Rdiv in Q. rewrite Rmult_assoc, Rinv_l in Q by lra. lra.
Qed.

Lemma accepted_gap_within_tolerance_witness :
  Rabs (xnew rhs (bp_step 1 dt0) Bp - xtmp4 rhs (bp_step 1 dt0) Bp)
  <= tolerance.
Proof.
  apply (accepted_gap_within_tolerance rhs (bp_step 1 dt0)).
  rewrite bp_step_errMax. exact bp_err_small.
Defined.
